(** * pinakes: a shallow embedding of the store, the RPC manager, the
    background queue and the backfill engine, with proofs of their
    documented properties.

    Sources: src/src/util/db.ts, src/src/util/xrpc.ts, src/src/util/queue.ts,
    src/src/util/util.ts and the backfill engine (src/unnamed/part_002). *)

From Stdlib Require Import ZArith QArith String Ascii List Bool Reals Lra Psatz Lia Sorted Permutation.
From stdpp Require Import base gmap sets strings list.

Import ListNotations.
#[global] Set Warnings "-register-all".
Open Scope string_scope.

(* ===================================================================== *)
(** * Data model (db.ts) *)
(* ===================================================================== *)

Inductive PostInclusionReason :=
| self
| liked_by_self
| reposted_by
| ancestor_of
| descendant_of
| quoted_by
| linked_by
| by_follow.

#[global] Instance PostInclusionReason_eq_dec : EqDecision PostInclusionReason.
Proof. solve_decision. Defined.

(** A [Float32Array] embedding, as the list of its components' bit patterns. *)
Definition vector := list Z.

(** The input row of [insertPosts]: optional JS fields ([undefined] or
    [null]) are [None]. *)
Record Post := mkPost {
  creator : string;
  rkey : string;
  createdAt : Z;
  text : string;
  embedding : option vector;
  altText : option string;
  altTextEmbedding : option vector;
  replyParent : option string;
  replyRoot : option string;
  quoted : option string;
  embedTitle : option string;
  embedDescription : option string;
  embedUrl : option string;
  inclusionReason : PostInclusionReason;
  inclusionContext : option string;
}.

Module Store.

Section Store.

(** [formatVector]: the SQL expression [vector16(vector32(...))] that the
    store writes for a vector; the stored F16 blob is opaque here. *)
Variable blob : Type.
Variable formatVector : vector -> blob.

(** A row of table [post]. *)
Record PostRow := mkRow {
  r_creator : string;
  r_rkey : string;
  r_createdAt : Z;
  r_text : string;
  r_embedding : option blob;
  r_altText : option string;
  r_altTextEmbedding : option blob;
  r_replyParent : option string;
  r_replyRoot : option string;
  r_quoted : option string;
  r_embedTitle : option string;
  r_embedDescription : option string;
  r_embedUrl : option string;
  r_inclusionReason : PostInclusionReason;
  r_inclusionContext : option string;
}.

(** Table [post] is a [gmap (string * string) PostRow], indexed by its
    primary key [(creator, rkey)]. *)

Definition post_key (p : Post) : string * string := (creator p, rkey p).

(** The values object built by [posts.map(...)] in [insertPosts]:
    [embedding: post.embedding ? formatVector(post.embedding) : null]. *)
Definition values_row (p : Post) : PostRow := {|
  r_creator := creator p;
  r_rkey := rkey p;
  r_createdAt := createdAt p;
  r_text := text p;
  r_embedding := match embedding p with Some e => Some (formatVector e) | None => None end;
  r_altText := altText p;
  r_altTextEmbedding :=
    match altTextEmbedding p with Some e => Some (formatVector e) | None => None end;
  r_replyParent := replyParent p;
  r_replyRoot := replyRoot p;
  r_quoted := quoted p;
  r_embedTitle := embedTitle p;
  r_embedDescription := embedDescription p;
  r_embedUrl := embedUrl p;
  r_inclusionReason := inclusionReason p;
  r_inclusionContext := inclusionContext p;
|}.

(** [oc.doUpdateSet((eb) => ({ col: eb.ref("excluded.col"), ... }))]:
    every column, the stored row [_old] included in none of them. *)
Definition do_update_set (_old excluded : PostRow) : PostRow := {|
  r_creator := r_creator excluded;
  r_rkey := r_rkey excluded;
  r_createdAt := r_createdAt excluded;
  r_text := r_text excluded;
  r_embedding := r_embedding excluded;
  r_altText := r_altText excluded;
  r_altTextEmbedding := r_altTextEmbedding excluded;
  r_replyParent := r_replyParent excluded;
  r_replyRoot := r_replyRoot excluded;
  r_quoted := r_quoted excluded;
  r_embedTitle := r_embedTitle excluded;
  r_embedDescription := r_embedDescription excluded;
  r_embedUrl := r_embedUrl excluded;
  r_inclusionReason := r_inclusionReason excluded;
  r_inclusionContext := r_inclusionContext excluded;
|}.

(** One row of [INSERT ... ON CONFLICT DO UPDATE]: the only uniqueness
    constraint of [post] is its primary key. *)
Definition upsert_row (tbl : gmap (string * string) PostRow) (row : PostRow)
  : gmap (string * string) PostRow :=
  let k := (r_creator row, r_rkey row) in
  match tbl !! k with
  | Some old => <[k := do_update_set old row]> tbl
  | None => <[k := row]> tbl
  end.

(** [insertPosts(posts)]: one multi-row statement, rows applied in order. *)
Definition insertPosts (tbl : gmap (string * string) PostRow) (posts : list Post)
  : gmap (string * string) PostRow :=
  fold_left (fun t p => upsert_row t (values_row p)) posts tbl.

(** The last post of a batch with a given key, if any. *)
Fixpoint last_with_key (k : string * string) (posts : list Post) : option Post :=
  match posts with
  | [] => None
  | p :: ps =>
      match last_with_key k ps with
      | Some q => Some q
      | None => if decide (post_key p = k) then Some p else None
      end
  end.

End Store.

Arguments mkRow {blob}.
Arguments r_creator {blob}.
Arguments r_rkey {blob}.
Arguments r_createdAt {blob}.
Arguments r_text {blob}.
Arguments r_embedding {blob}.
Arguments r_altText {blob}.
Arguments r_altTextEmbedding {blob}.
Arguments r_replyParent {blob}.
Arguments r_replyRoot {blob}.
Arguments r_quoted {blob}.
Arguments r_embedTitle {blob}.
Arguments r_embedDescription {blob}.
Arguments r_embedUrl {blob}.
Arguments r_inclusionReason {blob}.
Arguments r_inclusionContext {blob}.
Arguments values_row {blob} formatVector p.
Arguments do_update_set {blob} _old excluded.
Arguments upsert_row {blob} tbl row.
Arguments insertPosts {blob} formatVector tbl posts.

End Store.

(* ===================================================================== *)
(** * String helpers (JS [String.prototype] methods on ASCII strings) *)
(* ===================================================================== *)

Module JsString.

Definition ascii_lower (c : ascii) : ascii :=
  let n := nat_of_ascii c in
  if (65 <=? n)%nat && (n <=? 90)%nat then ascii_of_nat (n + 32) else c.

(** [s.toLowerCase()] *)
Fixpoint toLowerCase (s : string) : string :=
  match s with
  | EmptyString => EmptyString
  | String c s' => String (ascii_lower c) (toLowerCase s')
  end.

Fixpoint startsWith (s pre : string) : bool :=
  match pre, s with
  | EmptyString, _ => true
  | String c pre', String d s' => Ascii.eqb c d && startsWith s' pre'
  | String _ _, EmptyString => false
  end.

(** [s.includes(sub)] *)
Fixpoint includes (s sub : string) : bool :=
  startsWith s sub ||
  match s with
  | EmptyString => false
  | String _ s' => includes s' sub
  end.

(** JS [a < b] on strings: code-unit lexicographic order. *)
Definition lt (a b : string) : bool :=
  match String.compare a b with Lt => true | _ => false end.

End JsString.

(* ===================================================================== *)
(** * RPC manager (xrpc.ts) *)
(* ===================================================================== *)

Module Xrpc.

(** What [shouldRetry] inspects of a thrown value. *)
Record RpcError := mkRpcError {
  is_object : bool;              (* [error && typeof error === "object"] *)
  to_string : string;            (* [`${error}`] *)
  is_type_error : bool;          (* [error instanceof TypeError] *)
  rate_limit_reset : option Z;   (* [parseInt] of the [rate-limit-reset] header, if present and not NaN *)
  status : option Z;             (* [error.status], when it is a number *)
}.

(** [const retryableStatusCodes = new Set([408, 429, 500, 502, 503, 504])] *)
Definition retryableStatusCodes : list Z := [408; 429; 500; 502; 503; 504]%Z.

(** [const maxRetries = 5] *)
Definition maxRetries : nat := 5.

(** [Math.pow(2.9, attempt + 1) * 1000], milliseconds, as an exact rational. *)
Definition status_backoff_ms (attempt : nat) : Q :=
  (Qpower (29 # 10) (Z.of_nat (S attempt)) * 1000)%Q.

(** The tail of [shouldRetry], from [if (attempt >= maxRetries)] on. *)
Definition shouldRetry_status (error : RpcError) (attempt : nat) : bool * option Q :=
  if (maxRetries <=? attempt)%nat then (false, None) else
  match status error with
  | Some s => if existsb (Z.eqb s) retryableStatusCodes
              then (true, Some (status_backoff_ms attempt)) else (false, None)
  | None => (false, None)
  end.

(** [shouldRetry(error, attempt)] at wall-clock time [now] (ms): whether to
    retry, and the [sleep] it awaits before answering.  [if (reset)] is
    false for [0]. *)
Definition shouldRetry (now : Z) (error : RpcError) (attempt : nat) : bool * option Q :=
  if negb (is_object error) then (false, None) else
  let errorStr := JsString.toLowerCase (to_string error) in
  if JsString.includes errorStr "tcp" || JsString.includes errorStr "network"
     || JsString.includes errorStr "dns" then (true, None) else
  if is_type_error error then (false, None) else
  match rate_limit_reset error with
  | Some reset => if (reset =? 0)%Z then shouldRetry_status error attempt
                  else (true, Some (inject_Z (reset * 1000 - now)))
  | None => shouldRetry_status error attempt
  end.

(** One response of the remote endpoint to [fn(client)]. *)
Inductive Response (A : Type) := Ok (v : A) | Err (e : RpcError).
Arguments Ok {A}. Arguments Err {A}.

Inductive QueryResult (A : Type) :=
| Success (v : A)
| Thrown (e : RpcError)
| Unfinished.   (* the given responses ran out while still retrying *)
Arguments Success {A}. Arguments Thrown {A}. Arguments Unfinished {A}.

(** [query(service, fn)]: each call declares [let attempt = 0], runs [fn],
    and on failure asks [shouldRetry(error, attempt++)] and, on a retry,
    calls [this.query(service, fn)] afresh.  [responses] are the successive
    outcomes of [fn(client)]; the result lists the sleeps and counts the
    calls of [fn].  [now] is taken once and kept across the retries.
    Not modelled: the per-host [PQueue] (concurrency 10).  Each retry is a
    nested [queue.add] made while the failing call still holds its slot, so
    the model describes the code only while the chain of retries fits in the
    free slots; ten accepted errors in a row leave the code waiting forever,
    where this model goes on retrying. *)
Fixpoint query_go {A} (now : Z) (attempt : nat) (responses : list (Response A))
  : QueryResult A * list Q * nat :=
  match responses with
  | [] => (Unfinished, [], 0%nat)
  | Ok v :: _ => (Success v, [], 1%nat)
  | Err e :: rest =>
      match shouldRetry now e attempt with
      | (true, d) =>
          let '(r, sleeps, calls) := query_go now 0 rest in
          (r, (option_list d ++ sleeps)%list, S calls)
      | (false, _) => (Thrown e, [], 1%nat)
      end
  end.

Definition query {A} (now : Z) (responses : list (Response A)) :=
  query_go now 0 responses.

(* ------------------------------------------------------------------- *)
(** ** DID to service resolution *)

(** A [serviceEndpoint] value of a DID document. *)
Inductive Endpoint := EStr (s : string) | ENonString.

Record Service := mkService { service_id : string; serviceEndpoint : Endpoint }.

Record DidDocument := mkDidDocument { service : option (list Service) }.

(** Outcome of [this.idResolver.resolve(did)]: a document, or a thrown
    [Error] with its [name]. *)
(** What [this.idResolver.resolve(did)] settles to: a document, [null]
    for a DID that does not exist, or a rejection with the error's name. *)
Inductive Resolution := Resolved (doc : option DidDocument) | ResolveError (name : string).

Inductive ServiceResult := ServiceOk (endpoint : option string) | ServiceError.

(** [didToServiceCache]: a [Map<string, string | null>]. *)
Abbreviation Cache := (gmap string (option string)) (only parsing).

Section GetService.

Variable resolve : string -> Resolution.

(** [didDoc?.service?.find((s) => s.id === "#atproto_pds")?.serviceEndpoint] *)
Definition find_pds (doc : option DidDocument) : option Endpoint :=
  match doc with
  | None => None
  | Some d =>
      match service d with
      | None => None
      | Some ss =>
          match List.find (fun s => String.eqb (service_id s) "#atproto_pds") ss with
          | Some s => Some (serviceEndpoint s)
          | None => None
          end
      end
  end.

(** [getServiceForDid(did)] with the cache threaded through; the [nat]
    counts the calls of the resolver (0 or 1). *)
Definition getServiceForDid (cache : Cache) (did : string)
  : ServiceResult * Cache * nat :=
  (* const fromCache = this.didToServiceCache.get(did); if (fromCache) return fromCache; *)
  let fromCache := match cache !! did with
                   | Some (Some s) => if String.eqb s "" then None else Some s
                   | _ => None
                   end in
  match fromCache with
  | Some s => (ServiceOk (Some s), cache, 0%nat)
  | None =>
      let '(didDoc, cache1, thrown) :=
        match resolve did with
        | Resolved doc => (doc, cache, false)
        | ResolveError name =>
            if String.eqb name "ImproperContentTypeError"
            then (None, <[did := None]> cache, false)
            else (None, cache, true)
        end in
      if thrown then (ServiceError, cache1, 1%nat) else
      match find_pds didDoc with
      | Some ENonString => (ServiceError, cache1, 1%nat)
      | Some (EStr s) =>
          if String.eqb s "" then (ServiceOk (Some s), cache1, 1%nat)
          else (ServiceOk (Some s), <[did := Some s]> cache1, 1%nat)
      | None => (ServiceOk None, cache1, 1%nat)
      end
  end.

End GetService.

End Xrpc.

(* ===================================================================== *)
(** * Background task queue (queue.ts, the [EventEmitter] version) *)
(* ===================================================================== *)

Module Queue.

Record QueueOptions := mkQueueOptions {
  hardConcurrency : nat;
  softConcurrency : option nat;
  maxQueueSize : option nat;
}.

(** How a task body settles: normally, with an [AbortError] (re-queued) or
    with any other error (emitted). *)
Inductive Outcome := Done | AbortError | OtherError.

Inductive Event := Queued | Completed | ErrorEvent.

Section Queue.

Variable A : Type.          (* the argument tuple [T] *)
Variable opts : QueueOptions.

(** A started task: its arguments and [countsTowardsSoft]. *)
Record Task := mkTask { t_args : A; countsTowardsSoft : bool }.

Record State := mkState {
  _queue : list A;
  _active : nat;
  tasks : list Task;                   (* running tasks; [_running] is their number *)
  promisesWaitingForSpace : list A;    (* suspended [add] calls, by their arguments *)
  microtasks : list A;                 (* resolved [add] calls whose continuation has not run *)
  events : list Event;                 (* everything emitted, in order *)
}.

Definition size (s : State) : nat := length (_queue s).
Definition runningTasks (s : State) : nat := length (tasks s).

Definition init : State := mkState [] 0 [] [] [] [].

(** [this._maxQueueSize] as a JS truthy number. *)
Definition max_limit : option nat :=
  match maxQueueSize opts with Some (S n) => Some (S n) | _ => None end.

(** [_notifyWaiting()]: resolving a waiter only schedules its continuation;
    [this.size] does not change inside the loop. *)
Fixpoint notify_loop (waiting : list A) (sz max : nat) : list A * list A :=
  match waiting with
  | [] => ([], [])
  | w :: ws =>
      if (sz <? max)%nat then
        let '(rest, resolved) := notify_loop ws sz max in (rest, w :: resolved)
      else (waiting, [])
  end.

Definition _notifyWaiting (s : State) : State :=
  match max_limit with
  | None => s
  | Some max =>
      let '(rest, resolved) := notify_loop (promisesWaitingForSpace s) (size s) max in
      mkState (_queue s) (_active s) (tasks s) rest ((microtasks s ++ resolved)%list) (events s)
  end.

Definition _canStart (s : State) : bool :=
  match _queue s with
  | [] => false
  | _ =>
      if (hardConcurrency opts <=? runningTasks s)%nat then false else
      match softConcurrency opts with
      | Some soft => negb (soft <=? _active s)%nat
      | None => true
      end
  end.

Definition _startTask (args : A) (s : State) : State :=
  let soft := match softConcurrency opts with Some _ => true | None => false end in
  mkState (_queue s) (if soft then S (_active s) else _active s)
          ((tasks s ++ [mkTask args soft])%list)
          (promisesWaitingForSpace s) (microtasks s) (events s).

(** [_drain()]: each round shifts one argument tuple, so [length _queue]
    rounds suffice. *)
Fixpoint drain_loop (fuel : nat) (s : State) : State :=
  match fuel with
  | O => s
  | S fuel' =>
      if _canStart s then
        match _queue s with
        | args :: rest =>
            let s1 := mkState rest (_active s) (tasks s) (promisesWaitingForSpace s)
                              (microtasks s) (events s) in
            drain_loop fuel' (_startTask args (_notifyWaiting s1))
        | [] => s
        end
      else s
  end.

Definition _drain (s : State) : State := drain_loop (length (_queue s)) s.

Definition emit (e : Event) (s : State) : State :=
  mkState (_queue s) (_active s) (tasks s) (promisesWaitingForSpace s) (microtasks s)
          ((events s ++ [e])%list).

(** The code of [add] after its possible [await]. *)
Definition push_args (args : A) (s : State) : State :=
  _drain (emit Queued (mkState ((_queue s ++ [args])%list) (_active s) (tasks s)
                              (promisesWaitingForSpace s) (microtasks s) (events s))).

(** [add(...args)]: suspends when [this.size >= this._maxQueueSize]. *)
Definition add (args : A) (s : State) : State :=
  match max_limit with
  | Some max =>
      if (max <=? size s)%nat
      then mkState (_queue s) (_active s) (tasks s)
                   ((promisesWaitingForSpace s ++ [args])%list) (microtasks s) (events s)
      else push_args args s
  | None => push_args args s
  end.

(** Settling of the [i]-th running task, with its [.catch] and [.finally]
    reactions merged into one step.  In the code they are two microtasks:
    in between, an aborted task's arguments are back on [_queue] while the
    task still counts in [_running]; that intermediate state is not modelled.
    For a task that completes normally the [.catch] does nothing and the
    step is exact. *)
Definition finish (i : nat) (o : Outcome) (s : State) : State :=
  match nth_error (tasks s) i with
  | None => s
  | Some t =>
      let s0 := mkState (_queue s) (_active s) (firstn i (tasks s) ++ skipn (S i) (tasks s))
                        (promisesWaitingForSpace s) (microtasks s) (events s) in
      let s1 := match o with
                | Done => s0
                | AbortError =>
                    _notifyWaiting (mkState ((_queue s0 ++ [t_args t])%list) (_active s0)
                      (tasks s0) (promisesWaitingForSpace s0) (microtasks s0) (events s0))
                | OtherError => emit ErrorEvent s0
                end in
      let s2 := if countsTowardsSoft t
                then mkState (_queue s1) (_active s1 - 1) (tasks s1)
                       (promisesWaitingForSpace s1) (microtasks s1) (events s1)
                else s1 in
      _drain (_notifyWaiting (emit Completed s2))
  end.

(** The soft timeout of the [i]-th running task. *)
Definition soft_timeout (i : nat) (s : State) : State :=
  match nth_error (tasks s) i with
  | Some (mkTask args true) =>
      _drain (mkState (_queue s) (_active s - 1)
                (firstn i (tasks s) ++ mkTask args false :: skipn (S i) (tasks s))
                (promisesWaitingForSpace s) (microtasks s) (events s))
  | _ => s
  end.

(** The continuation of the oldest resolved [add]. *)
Definition run_microtask (s : State) : State :=
  match microtasks s with
  | [] => s
  | args :: rest =>
      push_args args (mkState (_queue s) (_active s) (tasks s)
                        (promisesWaitingForSpace s) rest (events s))
  end.

(** What the event loop can do next. *)
Inductive Step :=
| CallAdd (args : A)
| Settle (i : nat) (o : Outcome)
| SoftTimeout (i : nat)
| Microtask.

Definition step (s : State) (st : Step) : State :=
  match st with
  | CallAdd args => add args s
  | Settle i o => finish i o s
  | SoftTimeout i => soft_timeout i s
  | Microtask => run_microtask s
  end.

Definition run (s : State) (steps : list Step) : State := fold_left step steps s.

End Queue.

Arguments init {A}.
Arguments _queue {A}.
Arguments size {A}.
Arguments run {A} opts s steps.
Arguments CallAdd {A} args.
Arguments Settle {A} i o.
Arguments SoftTimeout {A} i.
Arguments Microtask {A}.

End Queue.

(* ===================================================================== *)
(** * [logarithmicScale] (util.ts), over the reals *)
(* ===================================================================== *)

Module Scale.

Open Scope R_scope.

(** [logarithmicScale(from, to, input)], with JS numbers read as reals
    (IEEE rounding is not modelled). *)
Definition logarithmicScale (from to : R * R) (input : R) : R :=
  let '(from0, from1) := from in
  let '(to0, to1) := to in
  if Rle_dec input from0 then to0 else
  if Rle_dec from1 input then to1 else
  if Req_EM_T from0 from1 then to0 else
  if Req_EM_T to0 to1 then to0 else
  let logFromMin := ln from0 in
  let logFromMax := ln from1 in
  let logToMin := ln to0 in
  let logToMax := ln to1 in
  let logInput := ln input in
  let t := (logInput - logFromMin) / (logFromMax - logFromMin) in
  let logResult := logToMin + t * (logToMax - logToMin) in
  exp logResult.

(** [Math.round(x)]: [floor(x + 0.5)]. *)
Definition round (x : R) : Z := Int_part (x + / 2).

End Scale.

(* ===================================================================== *)
(** * Backfill engine (part_002) *)
(* ===================================================================== *)

Module Backfill.

(** [const BSKY_APP_DID = "did:plc:z72i7hdynmk6r22z27h6tvur"] *)
Definition BSKY_APP_DID := "did:plc:z72i7hdynmk6r22z27h6tvur".

Definition POST := "app.bsky.feed.post".
Definition REPOST := "app.bsky.feed.repost".
Definition LIKE := "app.bsky.feed.like".
Definition FOLLOW := "app.bsky.graph.follow".

(** The fields of an [app.bsky.feed.post] record that the engine reads. *)
Record PostRecord := mkPostRecord {
  pr_createdAt : string;
  pr_text : string;
  pr_reply : option (string * string);   (* [reply.parent.uri], [reply.root.uri] *)
}.

Record PostInclusion := mkInclusion {
  reason : PostInclusionReason;
  context : option string;
}.

Record ProcessPostOptions := mkOptions {
  inclusion : PostInclusion;
  record : option PostRecord;
  depth : Z;                              (* [depth = 0] default applied *)
}.

(** An item put on [postQueue]: arguments and whether [prepend] was used. *)
Record Enqueued := mkEnqueued {
  q_uri : string;
  q_options : ProcessPostOptions;
  q_prepend : bool;
}.

(* ------------------------------------------------------------------- *)
(** ** Descendant walk: [processPostReplies] *)

(** A reply in [thread.replies]: a [threadViewPost] (with its post record
    when it validates) or anything else (not found, blocked). *)
Inductive ThreadNode :=
| ThreadViewPost (uri : string) (rec : option PostRecord) (replies : list ThreadNode)
| OtherReply.

Section Replies.

Variable sourceUri : string.
Variable backfillDepth : Z.
Variable maxThreadDepth : Z.

Definition descendant (u : string) (r : option PostRecord) : Enqueued :=
  mkEnqueued u (mkOptions (mkInclusion descendant_of (Some sourceUri)) r (backfillDepth + 1))
             true.

(** One iteration of the [for (const reply of replies)] loop of
    [processPostReplies] at thread depth [threadDepth]: [prepend] the reply,
    then recurse into [reply.replies] at [threadDepth + 1], whose first
    statement is [if (threadDepth > maxThreadDepth) return]. *)
Fixpoint visit (reply : ThreadNode) (threadDepth : Z) {struct reply} : list Enqueued :=
  match reply with
  | ThreadViewPost u r sub =>
      descendant u r ::
      (if (maxThreadDepth <? threadDepth + 1)%Z then [] else
       (fix loop (rs : list ThreadNode) : list Enqueued :=
          match rs with
          | [] => []
          | x :: rest => (visit x (threadDepth + 1) ++ loop rest)%list
          end) sub)
  | OtherReply => []   (* [if (!is(threadViewPostSchema, reply)) continue] *)
  end.

(** [processPostReplies({ sourceUri, backfillDepth, replies, threadDepth, maxThreadDepth })],
    as the sequence of [postQueue.prepend] calls it makes. *)
Definition processPostReplies (replies : list ThreadNode) (threadDepth : Z) : list Enqueued :=
  if (maxThreadDepth <? threadDepth)%Z then []
  else flat_map (fun reply => visit reply threadDepth) replies.

End Replies.

(** [node_at n td d u]: in the reply tree [n], entered at thread depth [td],
    a [threadViewPost] with URI [u] sits at thread depth [d]. *)
Inductive node_at : ThreadNode -> Z -> Z -> string -> Prop :=
| node_here u r sub td : node_at (ThreadViewPost u r sub) td td u
| node_below u r sub td c d v :
    In c sub -> node_at c (td + 1) d v -> node_at (ThreadViewPost u r sub) td d v.

(** A linear thread of [n] nested replies, each with URI [u]. *)
Fixpoint chain (u : string) (n : nat) : list ThreadNode :=
  match n with
  | O => []
  | S k => [ThreadViewPost u None (chain u k)]
  end.

(** [Math.round(logarithmicScale([5, 200], [20, 3], threadView.post.replyCount ?? 0))] *)
Definition maxThreadDepth (replyCount : option Z) : Z :=
  Scale.round (Scale.logarithmicScale (5, 200)%R (20, 3)%R
                 (IZR (match replyCount with Some n => n | None => 0 end))).

(* ------------------------------------------------------------------- *)
(** ** Repository walk: [processRepo] *)

(** [isTid] of @atcute/lexicons:
    [/^[234567abcdefghij][234567abcdefghijklmnopqrstuvwxyz]{12}$/]. *)
Definition tid_first (c : ascii) : bool := JsString.includes "234567abcdefghij" (String c "").
Definition tid_char (c : ascii) : bool :=
  JsString.includes "234567abcdefghijklmnopqrstuvwxyz" (String c "").

Fixpoint all_chars (f : ascii -> bool) (s : string) : bool :=
  match s with EmptyString => true | String c s' => f c && all_chars f s' end.

Definition isTid (s : string) : bool :=
  match s with
  | String c rest => tid_first c && all_chars tid_char rest && (String.length rest =? 12)%nat
  | EmptyString => false
  end.

(** [key.split("/")]. *)
Fixpoint split_slash (s : string) : list string :=
  match s with
  | EmptyString => [""]
  | String c s' =>
      if Ascii.eqb c "/" then "" :: split_slash s'
      else match split_slash s' with
           | seg :: segs => String c seg :: segs
           | [] => [String c ""]
           end
  end.

(** What [decodeCbor(carEntry.bytes)] makes of a block, as its
    collection's validator sees it: a valid record of one of the four
    collections, any other value ([VOther]), or bytes [decodeCbor] rejects
    ([VUndecodable]: it throws). *)
Inductive RecordValue :=
| VPost (r : PostRecord)
| VRepost (subject_uri : string)
| VLike (subject_uri : string)
| VFollow (subject : string)
| VOther
| VUndecodable.

(** An MST entry: its key and its block, [None] when the CID is
    missing from the block map (the [assert] fails). *)
Record MstEntry := mkEntry { key : string; block : option RecordValue }.

(** Keys of [this.processors]. *)
Definition processors_keys := [POST; REPOST; LIKE; FOLLOW].

Definition mem (x : string) (l : list string) : bool := existsb (String.eqb x) l.

Record Collected := mkCollected {
  c_uri : string;
  c_collection : string;
  c_record : RecordValue;
  c_inclusion : option PostInclusion;
}.

(** [decodeCbor] throws. *)
Definition undecodable (v : RecordValue) : bool :=
  match v with VUndecodable => true | _ => false end.

(** The skip test of the walk. *)
Definition skip_old (isOwnRepo : bool) (rev : option string) (collection : string)
                    (rkey : option string) : bool :=
  match rev, rkey with
  | Some rev, Some rkey =>
      negb (String.eqb rev "") && isTid rev && JsString.lt rkey rev
      && (negb isOwnRepo || negb (String.eqb collection FOLLOW))
  | _, _ => false
  end.

(** The first loop of [processRepo]: the [records] array, or [None] when it
    throws (the repo then fails as a whole). *)
Fixpoint collect (did : string) (isOwnRepo : bool) (rev : option string)
                 (collections : list string) (entries : list MstEntry)
  : option (list Collected) :=
  match entries with
  | [] => Some []
  | e :: rest =>
      let segs := split_slash (key e) in
      let collection := nth 0 segs "" in
      let rkey := nth_error segs 1 in
      if negb (mem collection collections) || negb (mem collection processors_keys)
      then collect did isOwnRepo rev collections rest else
      match block e with
      | None => None
      | Some record =>
          if undecodable record then None else
          if skip_old isOwnRepo rev collection rkey
          then collect did isOwnRepo rev collections rest else
          let uri := "at://" ++ did ++ "/" ++ collection ++ "/"
                     ++ match rkey with Some k => k | None => "undefined" end in
          let inclusion :=
            if String.eqb collection POST
            then Some (mkInclusion (if isOwnRepo then self else by_follow) None)
            else None in
          option_map (cons (mkCollected uri collection record inclusion))
                     (collect did isOwnRepo rev collections rest)
      end
  end.

(** What the processors put on the queues. *)
Inductive Action :=
| PostQueueAdd (uri : string) (opts : ProcessPostOptions)
| RepoQueueAdd (did : string).

Section Processors.

(** Whether [parseAtUri(uri)] accepts a URI the walk built,
    [`at://${did}/${collection}/${rkey}`]: it throws otherwise (an [rkey]
    that is not a valid record key, say).  When it accepts it, the [repo]
    it returns is that [did]. *)
Variable uriOk : string -> bool.

(** [this.processors[collection](uri, record, inclusion)]: the queue
    actions it takes, or [None] when it throws. *)
Definition process_record (did : string) (c : Collected) : option (list Action) :=
  if String.eqb (c_collection c) POST then
    match c_record c, c_inclusion c with
    | VPost r, Some inc => Some [PostQueueAdd (c_uri c) (mkOptions inc (Some r) 0)]
    | VPost _, None => None          (* [inclusion reason is required] *)
    | _, _ => Some []
    end
  else if String.eqb (c_collection c) REPOST then
    match c_record c with
    | VRepost s =>
        if uriOk (c_uri c)
        then Some [PostQueueAdd s (mkOptions (mkInclusion reposted_by (Some did)) None 0)]
        else None                    (* [parseAtUri(uri)] throws *)
    | _ => Some []
    end
  else if String.eqb (c_collection c) LIKE then
    match c_record c with
    | VLike s => Some [PostQueueAdd s (mkOptions (mkInclusion liked_by_self None) None 0)]
    | _ => Some []
    end
  else if String.eqb (c_collection c) FOLLOW then
    match c_record c with
    | VFollow s => Some [RepoQueueAdd s]
    | _ => Some []
    end
  else Some [].

(** The second loop of [processRepo]: the actions taken, in order, and
    whether every processor returned ([false]: one threw, and the loop
    stopped there). *)
Fixpoint process_all (did : string) (records : list Collected) : list Action * bool :=
  match records with
  | [] => ([], true)
  | c :: cs =>
      match process_record did c with
      | None => ([], false)
      | Some acts => let '(rest, ok) := process_all did cs in ((acts ++ rest)%list, ok)
      end
  end.

(** [processRepo(did, collections)] once the repo bytes are decoded:
    the queue actions taken and the [setRepoRev] write, which only happens
    when nothing throws ([catch] logs the error). *)
Definition processRepo (userDid did : string) (rev : option string)
                       (collections : list string) (entries : list MstEntry)
                       (commit_rev : string)
  : list Action * option (string * string) :=
  let isOwnRepo := String.eqb did userDid in
  match collect did isOwnRepo rev collections entries with
  | None => ([], None)
  | Some records =>
      let '(acts, ok) := process_all did records in
      (acts, if ok then Some (did, commit_rev) else None)
  end.

End Processors.

End Backfill.

(* ------------------------------------------------------------------- *)
(** ** Post processing: [processPost] up to the write buffer *)

Module Engine.

Import Backfill.

(** Errors as [processPost] tells them apart. *)
Inductive ErrKind :=
| TimeoutError     (* [DOMException] named [TimeoutError] *)
| NotFound         (* [ClientResponseError] with [error === "NotFound"] *)
| OtherError.

(** Response of [app.bsky.feed.getPostThread] ([queryNoRetry]). *)
Inductive ThreadResponse :=
| TRThreadViewPost (rec : option PostRecord)   (* [None]: record fails the post schema *)
| TRBlockedPost
| TRNotFoundPost
| TRUnexpected
| TRError (k : ErrKind).

(** Response of [com.atproto.repo.getRecord] ([queryByDid]). *)
Inductive RecordResponse :=
| RRValue (rec : option PostRecord)             (* [None]: fails the post schema *)
| RRError (k : ErrKind).

(** What [await this.fetchPost(uri)] yields: a record (the thread view
    that may come with it is not modelled), [{}], or a thrown error. *)
Inductive FetchResult :=
| FRecord (r : PostRecord)
| FEmpty
| FThrow (k : ErrKind).

(** A post handed to [queueWritePost]; the fields derived from
    [record.embed] (alt text, link card, quote) are not modelled. *)
Record Buffered := mkBuffered {
  b_uri : string;     (* ghost: the URI [processPost] was called with *)
  b_creator : string;
  b_rkey : string;
  b_createdAt : Z;
  b_text : string;
  b_replyParent : option string;
  b_replyRoot : option string;
  b_inclusionReason : PostInclusionReason;
  b_inclusionContext : option string;
}.

Record Engine := mkEngine {
  seenPosts : gset Z;
  toWrite : list Buffered;   (* every [queueWritePost] call, in order *)
  maxDepth : Z;
}.

Section ProcessPost.

Variable h32 : string -> Z.                               (* xxhash32 of the URI *)
Variable parseAtUri : string -> option (string * string * string).  (* repo, collection, rkey *)
Variable createdAtTime : string -> option Z.             (* [toDateOrNull(s)?.getTime()] *)

(** [fetchPost(uri)] given the two endpoints' answers. *)
Definition fetchPost (uri : string) (thread : ThreadResponse) (getRecord : RecordResponse)
  : FetchResult :=
  match parseAtUri uri with
  | None => FThrow OtherError                    (* [invalid AT URI] *)
  | Some (repo, collection, _) =>
      if negb (String.eqb collection POST) then FEmpty else
      if String.eqb repo BSKY_APP_DID then FEmpty else
      let fallback :=
        match getRecord with
        | RRValue (Some r) => FRecord r
        | RRValue None => FThrow OtherError      (* [invalid post record] *)
        | RRError k => FThrow k
        end in
      match thread with
      | TRThreadViewPost (Some r) => FRecord r
      | TRThreadViewPost None => FEmpty
      | TRBlockedPost => fallback
      | TRNotFoundPost => FThrow NotFound
      | TRUnexpected => fallback
      | TRError NotFound => FThrow NotFound
      | TRError TimeoutError => FThrow TimeoutError
      | TRError OtherError => fallback
      end
  end.

Definition queueWritePost (st : Engine) (p : Buffered) : Engine :=
  mkEngine (seenPosts st) ((toWrite st ++ [p])%list) (maxDepth st).

(** From [this.seenPosts.add(uriHash)] to [this.queueWritePost(post)]. *)
Definition after_record (st : Engine) (uri : string) (o : ProcessPostOptions)
                        (r : PostRecord) : Engine :=
  let st1 := mkEngine ({[ h32 uri ]} ∪ seenPosts st) (toWrite st) (maxDepth st) in
  match createdAtTime (pr_createdAt r) with
  | None => st1
  | Some createdAt =>
      if (createdAt =? 0)%Z then st1 else      (* [if (!createdAt)] *)
      match parseAtUri uri with
      | None => st1                             (* [parseAtUri] throws *)
      | Some (repo, _, rkey) =>
          queueWritePost st1
            (mkBuffered uri repo rkey createdAt (pr_text r)
               (option_map fst (pr_reply r)) (option_map snd (pr_reply r))
               (reason (inclusion o)) (context (inclusion o)))
      end
  end.

(** The synchronous start of [processPost(uri, options)]: it either ends
    or suspends on [await this.fetchPost(uri)]. *)
Inductive Start := Ended (st : Engine) | AwaitFetch.

Definition processPost_start (st : Engine) (uri : string) (o : ProcessPostOptions) : Start :=
  if (maxDepth st <? depth o)%Z then Ended st else
  if decide (h32 uri ∈ seenPosts st) then Ended st else
  match record o with
  | Some r => Ended (after_record st uri o r)
  | None => AwaitFetch
  end.

(** The rest of [processPost] once the fetch settles: the new state, and
    whether the call rejects ([TimeoutError] is re-thrown). *)
Definition processPost_resume (st : Engine) (uri : string) (o : ProcessPostOptions)
                              (f : FetchResult) : Engine * bool :=
  match f with
  | FThrow TimeoutError => (st, true)
  | FThrow _ => (st, false)
  | FEmpty => (st, false)                       (* [if (!record) return] *)
  | FRecord r => (after_record st uri o r, false)
  end.

(** Interleavings of [processPost] calls on the single event loop: a call
    starts, or the fetch of the [k]-th suspended call settles. *)
Inductive Step :=
| Call (uri : string) (o : ProcessPostOptions)
| Settle (k : nat) (f : FetchResult).

Record Config := mkConfig {
  engine : Engine;
  suspended : list (string * ProcessPostOptions);
}.

Definition step (c : Config) (s : Step) : Config :=
  match s with
  | Call uri o =>
      match processPost_start (engine c) uri o with
      | Ended st => mkConfig st (suspended c)
      | AwaitFetch => mkConfig (engine c) ((suspended c ++ [(uri, o)])%list)
      end
  | Settle k f =>
      match nth_error (suspended c) k with
      | None => c
      | Some (uri, o) =>
          mkConfig (fst (processPost_resume (engine c) uri o f))
                   (firstn k (suspended c) ++ skipn (S k) (suspended c))
      end
  end.

Definition run (c : Config) (steps : list Step) : Config := fold_left step steps c.

(** Number of buffered posts for [uri]. *)
Definition inserted (st : Engine) (uri : string) : nat :=
  length (List.filter (fun b => String.eqb (b_uri b) uri) (toWrite st)).

End ProcessPost.

End Engine.

(* ===================================================================== *)
(** * Text search: [searchPostsText] and [applySearchPostsOptions] (db.ts) *)
(* ===================================================================== *)

Module Search.

Import Store.

(** SQL three-valued truth. *)
Inductive SqlBool := STrue | SFalse | SNull.

Definition sql_and (a b : SqlBool) : SqlBool :=
  match a, b with
  | SFalse, _ | _, SFalse => SFalse
  | STrue, STrue => STrue
  | _, _ => SNull
  end.

Definition sql_or (a b : SqlBool) : SqlBool :=
  match a, b with
  | STrue, _ | _, STrue => STrue
  | SFalse, SFalse => SFalse
  | _, _ => SNull
  end.

(** Kysely's [eb.and(list)] / [eb.or(list)]: an empty list is [1 = 1] /
    [1 = 0]. *)
Definition eb_and (l : list SqlBool) : SqlBool :=
  match l with [] => STrue | x :: xs => fold_left sql_and xs x end.
Definition eb_or (l : list SqlBool) : SqlBool :=
  match l with [] => SFalse | x :: xs => fold_left sql_or xs x end.

Definition of_bool (b : bool) : SqlBool := if b then STrue else SFalse.

(** SQLite's [LIKE] without [ESCAPE]: [%] matches any run, [_] one
    character, ASCII letters compare case-insensitively. *)
Fixpoint like_match (pattern value : string) {struct pattern} : bool :=
  match pattern with
  | EmptyString => match value with EmptyString => true | _ => false end
  | String c p' =>
      if Ascii.eqb c "%" then
        (fix star (v : string) : bool :=
           like_match p' v || match v with EmptyString => false | String _ v' => star v' end)
        value
      else
        match value with
        | EmptyString => false
        | String d v' =>
            (Ascii.eqb c "_" || Ascii.eqb (JsString.ascii_lower c) (JsString.ascii_lower d))
            && like_match p' v'
        end
  end.

(** [column LIKE pattern], [NULL] for a [NULL] column. *)
Definition like (col : option string) (pattern : string) : SqlBool :=
  match col with None => SNull | Some v => of_bool (like_match pattern v) end.

Inductive Order := asc | desc.

Record SearchPostsOptions := mkSearchOptions {
  results : Z;
  o_creator : option (list string);
  parentAuthor : option (list string);
  rootAuthor : option (list string);
  before : option string;
  after : option string;
  includeAltText : bool;        (* [undefined] is [false] *)
  order : option Order;
}.

(** [`${text}`] for [text : string | undefined]. *)
Definition template (text : option string) : string :=
  match text with Some t => t | None => "undefined" end.

Definition truthy (s : option string) : bool :=
  match s with Some t => negb (String.eqb t "") | None => false end.

Section Search.

Variable blob : Type.
(** [new Date(s).getTime()], when not [NaN]. *)
Variable dateTime : string -> option Z.

Definition toDateOrNull (s : option string) : option Z :=
  match s with Some t => dateTime t | None => None end.

(** The [where] of [searchPostsText] on the query text, if any. *)
Definition text_condition (text : option string) (includeAltText : bool)
  : option (PostRow blob -> SqlBool) :=
  if truthy text || includeAltText then
    Some (fun row =>
      eb_or ((if truthy text then [like (Some (r_text row)) ("%" ++ template text ++ "%")]
              else [])
             ++ (if includeAltText then [like (r_altText row) ("%" ++ template text ++ "%")]
                 else []))%list)
  else None.

(** The [where] added by [applySearchPostsOptions], or [None] when it
    throws on an invalid date. *)
Definition options_condition (o : SearchPostsOptions) : option (PostRow blob -> SqlBool) :=
  let beforeTs := toDateOrNull (before o) in
  let afterTs := toDateOrNull (after o) in
  if truthy (before o) && negb (bool_decide (is_Some beforeTs)) then None else
  if truthy (after o) && negb (bool_decide (is_Some afterTs)) then None else
  Some (fun row =>
    eb_and (
      (match o_creator o with
       | Some cs => [eb_or (map (fun c => of_bool (String.eqb (r_creator row) c)) cs)]
       | None => [] end)
      ++ (match parentAuthor o with
          | Some (_ :: _ as ps) =>
              [eb_or (map (fun p => like (r_replyParent row) ("at://" ++ p ++ "%")) ps)]
          | _ => [] end)
      ++ (match rootAuthor o with
          | Some (_ :: _ as rs) =>
              [eb_or (map (fun r => like (r_replyRoot row) ("at://" ++ r ++ "%")) rs)]
          | _ => [] end)
      ++ (match beforeTs with Some t => [of_bool (r_createdAt row <? t)%Z] | None => [] end)
      ++ (match afterTs with Some t => [of_bool (t <? r_createdAt row)%Z] | None => [] end))%list).

Definition holds (c : SqlBool) : bool := match c with STrue => true | _ => false end.

(** [orderBy("createdAt", order)]: a stable insertion sort (SQLite leaves
    the order of equal keys open; table order is one admissible choice). *)
Fixpoint insert_by (ord : Order) (r : PostRow blob) (l : list (PostRow blob)) :=
  match l with
  | [] => [r]
  | x :: xs =>
      let before_x := match ord with
                      | asc => (r_createdAt r <? r_createdAt x)%Z
                      | desc => (r_createdAt x <? r_createdAt r)%Z
                      end in
      if before_x then r :: x :: xs else x :: insert_by ord r xs
  end.

Definition order_by (ord : Order) (l : list (PostRow blob)) : list (PostRow blob) :=
  fold_right (insert_by ord) [] (rev l).

(** [.limit(results)]: a negative SQLite [LIMIT] is no limit. *)
Definition limit (n : Z) (l : list (PostRow blob)) : list (PostRow blob) :=
  if (n <? 0)%Z then l else firstn (Z.to_nat n) l.

(** [searchPostsText(text, options)] over the rows of table [post]. *)
Definition searchPostsText (table : list (PostRow blob)) (text : option string)
                           (o : SearchPostsOptions) : option (list (PostRow blob)) :=
  let ord := match order o with Some x => x | None => desc end in
  match options_condition o with
  | None => None
  | Some cond =>
      let keep row :=
        holds (match text_condition text (includeAltText o) with
               | Some tc => sql_and (tc row) (cond row)
               | None => cond row
               end) in
      Some (limit (results o) (order_by ord (List.filter keep table)))
  end.

End Search.

Arguments text_condition {blob} text includeAltText.
Arguments options_condition {blob} dateTime o.
Arguments insert_by {blob} ord r l.
Arguments order_by {blob} ord l.
Arguments limit {blob} n l.
Arguments searchPostsText {blob} dateTime table text o.

End Search.

(* ===================================================================== *)
(* ===================================================================== *)
(** * What [processPost] enqueues after buffering a post (part_002) *)
(* ===================================================================== *)

Module Followups.

Import Backfill.

(** [threadView.parent] and the [parent.parent] chain above it: a
    [threadViewPost] (its URI, its record when it validates, its own
    parent), a [blockedPost] (its URI), anything else ([notFoundPost]), or
    nothing. *)
Inductive ThreadParent :=
| ParentPost (uri : string) (rec : option PostRecord) (parent : ThreadParent)
| ParentBlocked (uri : string)
| ParentOther
| ParentNone.

(** What [processPost] reads of a [threadViewPost]. *)
Record ThreadView := mkThreadView {
  tv_parent : ThreadParent;
  tv_replyCount : option Z;        (* [threadView.post.replyCount] *)
  tv_replies : list ThreadNode;    (* [threadView.replies], [[]] when absent *)
  tv_quoteValue : option PostRecord;
    (* the value of the quoted [viewRecord] in [threadView.post.embed], when it is a valid post *)
}.

Section Followups.

Variable uri : string.
Variable o : ProcessPostOptions.
Variable maxDepth : Z.

Definition ancestor_add (u : string) : Enqueued :=
  mkEnqueued u (mkOptions (mkInclusion ancestor_of (Some uri)) None (depth o + 1)) false.

(** The [while (parent)] loop over the ancestors. *)
Fixpoint ancestors (p : ThreadParent) : list Enqueued :=
  match p with
  | ParentPost u r p' =>
      mkEnqueued u (mkOptions (mkInclusion ancestor_of (Some uri)) r (depth o + 1)) true
      :: ancestors p'
  | ParentBlocked u => [ancestor_add u]
  | ParentOther | ParentNone => []
  end.

(** The [if (quoted)] block: [prepend] with the record when the thread view
    from [fetchPost] carries a valid quoted record, [add] without otherwise. *)
Definition quote_followup (quoted : option string) (tv0 : option ThreadView) : list Enqueued :=
  match quoted with
  | None => []
  | Some q =>
      match option_bind _ _ tv_quoteValue tv0 with
      | Some qr => [mkEnqueued q (mkOptions (mkInclusion quoted_by (Some uri)) (Some qr) (depth o + 1)) true]
      | None => [mkEnqueued q (mkOptions (mkInclusion quoted_by (Some uri)) None (depth o + 1)) false]
      end
  end.

(** From [if (!threadView)] (the [getPostThread] query, whose result
    [fetched] is used only when [fetchPost] gave no thread view) to the
    [processPostReplies] call. *)
Definition thread_followups (r : PostRecord) (tv0 fetched : option ThreadView) : list Enqueued :=
  let tv := match tv0 with Some t => Some t | None => fetched end in
  match tv with
  | None =>
      match pr_reply r with
      | Some (parent, root) => [ancestor_add parent; ancestor_add root]
      | None => []
      end
  | Some t =>
      ancestors (tv_parent t) ++
      processPostReplies uri (depth o) (maxThreadDepth (tv_replyCount t)) (tv_replies t) 1
  end.

(** Everything [processPost(uri, o)] puts on [postQueue] after
    [queueWritePost(post)], in call order: [r] is the post's record,
    [quoted] the quoted URI computed from [record.embed], [tv0] the thread
    view [fetchPost] returned with the record, if any, and [fetched] the
    answer of the later [getPostThread] query when it validates. *)
Definition followups (r : PostRecord) (quoted : option string)
                     (tv0 fetched : option ThreadView) : list Enqueued :=
  quote_followup quoted tv0 ++
  (if decide (reason (inclusion o) = descendant_of) then [] else
   match pr_reply r with
   | Some (_, root) =>
       if decide (reason (inclusion o) = ancestor_of) then []
       else if (depth o + 1 <? maxDepth)%Z then [ancestor_add root]
       else thread_followups r tv0 fetched
   | None => thread_followups r tv0 fetched
   end).

End Followups.

End Followups.

(* ===================================================================== *)
(** * The write buffer: [queueWritePost] and [writePosts] (part_002) *)
(* ===================================================================== *)

Module WriteBuffer.

(** [const WRITE_POSTS_BATCH_SIZE = 20] *)
Definition WRITE_POSTS_BATCH_SIZE : nat := 20.

Section WriteBuffer.

Variable P : Type.   (* a [Post] *)

Record State := mkState {
  toWrite : list P;
  loops : nat;                  (* [writePosts] calls suspended on [await this.db.insertPosts(batch)] *)
  insertCalls : list (list P);  (* every [insertPosts(batch)] call, in order *)
}.

(** One pass of [while (this.toWrite.length > 0)]: either the loop ends, or
    [splice(0, 20)] takes a batch, [insertPosts(batch)] is called and the
    loop suspends on it. *)
Definition loop_body (s : State) : option State :=
  match toWrite s with
  | [] => None
  | _ => Some (mkState (skipn WRITE_POSTS_BATCH_SIZE (toWrite s)) (loops s)
                        ((insertCalls s ++ [firstn WRITE_POSTS_BATCH_SIZE (toWrite s)])%list))
  end.

(** [writePosts()] up to its first [await]. *)
Definition writePosts (s : State) : State :=
  match loop_body s with
  | None => s
  | Some s' => mkState (toWrite s') (S (loops s')) (insertCalls s')
  end.

(** [queueWritePost(post)] *)
Definition queueWritePost (s : State) (p : P) : State :=
  let s1 := mkState ((toWrite s ++ [p])%list) (loops s) (insertCalls s) in
  if (WRITE_POSTS_BATCH_SIZE <? length (toWrite s1))%nat then writePosts s1 else s1.

(** A suspended [writePosts] loop resumes once its [insertPosts] settles
    (the [embeddingsQueue.add(batch)] that follows does not touch the
    buffer) and runs its next pass. *)
Definition resume (s : State) : State :=
  match loops s with
  | O => s
  | S n =>
      match loop_body s with
      | None => mkState (toWrite s) n (insertCalls s)
      | Some s' => s'
      end
  end.

Inductive Step := Queue (p : P) | Resume | Flush.

Definition step (s : State) (st : Step) : State :=
  match st with
  | Queue p => queueWritePost s p
  | Resume => resume s
  | Flush => writePosts s     (* the final [await this.writePosts()] of [backfill] *)
  end.

Definition run (s : State) (steps : list Step) : State := fold_left step steps s.

(** The posts handed to [queueWritePost], in order. *)
Definition queued (steps : list Step) : list P :=
  flat_map (fun st => match st with Queue p => [p] | _ => [] end) steps.

End WriteBuffer.

Arguments mkState {P}. Arguments toWrite {P}. Arguments loops {P}. Arguments insertCalls {P}.
Arguments Queue {P} p. Arguments Resume {P}. Arguments Flush {P}.
Arguments run {P} s steps. Arguments queued {P} steps.

End WriteBuffer.

(* ===================================================================== *)
(** * [generateEmbeddings] (part_002) *)
(* ===================================================================== *)

Module Embeddings.

(** [post.embedding = embedding] *)
Definition with_embedding (e : vector) (p : Post) : Post :=
  mkPost (creator p) (rkey p) (createdAt p) (text p) (Some e) (altText p)
         (altTextEmbedding p) (replyParent p) (replyRoot p) (quoted p) (embedTitle p)
         (embedDescription p) (embedUrl p) (inclusionReason p) (inclusionContext p).

(** [post.altTextEmbedding = embedding] *)
Definition with_altTextEmbedding (e : vector) (p : Post) : Post :=
  mkPost (creator p) (rkey p) (createdAt p) (text p) (embedding p) (altText p)
         (Some e) (replyParent p) (replyRoot p) (quoted p) (embedTitle p)
         (embedDescription p) (embedUrl p) (inclusionReason p) (inclusionContext p).

(** [post.text && ...] and [post.altText && ...]: JS truthiness. *)
Definition has_text (p : Post) : bool := negb (String.eqb (text p) "").
Definition has_altText (p : Post) : bool :=
  match altText p with Some s => negb (String.eqb s "") | None => false end.

(** [p.altText!] *)
Definition altText_str (p : Post) : string :=
  match altText p with Some s => s | None => "" end.

(** [posts.reduce(([posts, indices], post, i) => { f(post) && (posts.push(post), indices.push(i)); ... }, [[], []])],
    from index [i] on. *)
Fixpoint reduce_idx (f : Post -> bool) (i : nat) (posts : list Post) : list Post * list nat :=
  match posts with
  | [] => ([], [])
  | p :: rest =>
      let '(sel, idx) := reduce_idx f (S i) rest in
      if f p then (p :: sel, i :: idx) else (sel, idx)
  end.

(** [embeddings.forEach((embedding, i) => { posts[indices[i]].field = embedding; })]:
    the posts after the loop, and whether it threw (an [indices[i]] that is
    [undefined]). *)
Fixpoint assign (set : vector -> Post -> Post) (embeddings : list vector) (indices : list nat)
                (posts : list Post) : list Post * bool :=
  match embeddings with
  | [] => (posts, false)
  | e :: es =>
      match indices with
      | [] => (posts, true)
      | j :: idx => assign set es idx (alter (set e) j posts)
      end
  end.

Section Generate.

(** [extractEmbeddings(texts)]: one vector per text, or a rejection. *)
Variable extractEmbeddings : list string -> option (list vector).

(** [generateEmbeddings(posts)]: the posts as the method leaves them. *)
Definition generateEmbeddings (posts : list Post) : list Post :=
  let '(hasText, hasTextIndices) := reduce_idx has_text 0 posts in
  let '(hasAltText, hasAltTextIndices) := reduce_idx has_altText 0 posts in
  let textEmbeddings :=
    match hasText with [] => Some [] | _ => extractEmbeddings (map text hasText) end in
  let altTextEmbeddings :=
    match hasAltText with [] => Some [] | _ => extractEmbeddings (map altText_str hasAltText) end in
  match textEmbeddings, altTextEmbeddings with
  | Some te, Some ae =>
      let '(posts1, thrown) := assign with_embedding te hasTextIndices posts in
      if thrown then posts1 else fst (assign with_altTextEmbedding ae hasAltTextIndices posts1)
  | _, _ => posts          (* [Promise.all] rejects: [catch] logs it *)
  end.

End Generate.

End Embeddings.

(* ===================================================================== *)
(** * Helpers of util.ts and the database file (db.ts) *)
(* ===================================================================== *)

Module Util.

(** ["\n"] *)
Definition nl : string := String (ascii_of_nat 10) "".

(** [`${n}`] for a non-negative integer [n]. *)
Fixpoint digits (fuel n : nat) (acc : string) : string :=
  match fuel with
  | O => acc
  | S fuel' =>
      let acc' := String (ascii_of_nat (48 + n mod 10)) acc in
      if (n <? 10)%nat then acc' else digits fuel' (n / 10) acc'
  end.

Definition nat_to_string (n : nat) : string := digits (S n) n "".

(** [arr.join(sep)] *)
Definition join (sep : string) (l : list string) : string := String.concat sep l.

(** The embed of a post record, as the lexicon validators tell it apart. *)
Inductive Embed :=
| EImages (alts : list string)         (* [images.map((image) => image.alt)] *)
| EVideo (alt : option string)
| EExternal
| ERecord
| ERecordWithMedia (media : Embed)
| EOther.

(** [is(AppBskyEmbedRecordWithMedia.mainSchema, embed)] also validates the
    media: images, video or external. *)
Definition is_media (e : Embed) : bool :=
  match e with EImages _ | EVideo _ | EExternal => true | _ => false end.

Fixpoint alt_texts (e : Embed) : list string :=
  match e with
  | EImages alts => alts
  | EVideo (Some a) => if String.eqb a "" then [] else [a]     (* [&& embed.alt] *)
  | ERecordWithMedia m =>
      (* [extractAltTexts(embed.media) ?? []]: the media is an object, never null *)
      if is_media m then alt_texts m else []
  | _ => []
  end.

(** [extractAltTexts(embed)] *)
Definition extractAltTexts (embed : option Embed) : option (list string) :=
  match embed with
  | None => None          (* [if (!embed) return null] *)
  | Some e => Some (alt_texts e)
  end.

(** [`---image ${i + 1}---\n${alt}`] *)
Definition image_header (i : nat) (alt : string) : string :=
  "---image " ++ nat_to_string (S i) ++ "---" ++ nl ++ alt.

Fixpoint mapi_from {A B} (f : nat -> A -> B) (i : nat) (l : list A) : list B :=
  match l with [] => [] | x :: xs => f i x :: mapi_from f (S i) xs end.

(** The [altText] column assembled by [processPost]:
    [altTexts && altTexts.length > 1 ? altTexts.map(...).join("\n\n") : altTexts?.[0]]. *)
Definition altText_of (altTexts : option (list string)) : option string :=
  match altTexts with
  | Some l =>
      if (1 <? length l)%nat then Some (join (nl ++ nl) (mapi_from image_header 0 l))
      else nth_error l 0
  | None => None
  end.

(** [new Database(path)]: [this.url]. *)
Definition database_url (path : string) : string :=
  if JsString.includes path ":" then path else "file:" ++ path.

(** [init()]: whether [PRAGMA journal_mode=WAL] runs. *)
Definition uses_wal (url : string) : bool :=
  JsString.includes url "file:" || String.eqb url ":memory:".

End Util.

(* ===================================================================== *)
(** * The walk depth: the constructor and [backfill()] (part_002) *)
(* ===================================================================== *)

Module BackfillDepth.

(** [MAX_DEPTH], [MANY_FOLLOWS_MAX_DEPTH], [MANY_FOLLOWS_THRESHOLD]. *)
Definition MAX_DEPTH : Z := 5.
Definition MANY_FOLLOWS_MAX_DEPTH : Z := 2.
Definition MANY_FOLLOWS_THRESHOLD : Z := 250.

(** [this.maxDepth = options.depth ?? MAX_DEPTH] in the constructor. *)
Definition initial_maxDepth (depth : option Z) : Z :=
  match depth with Some d => d | None => MAX_DEPTH end.

(** The start of [backfill()]: [None] when it returns for a falsy
    [handle], otherwise the [maxDepth] the walk uses. *)
Definition backfill_maxDepth (maxDepth : Z) (handle : option string) (followsCount : option Z)
  : option Z :=
  if negb (Search.truthy handle) then None
  else if (maxDepth =? MAX_DEPTH)%Z &&
          (MANY_FOLLOWS_THRESHOLD <? match followsCount with Some f => f | None => 0 end)%Z
       then Some MANY_FOLLOWS_MAX_DEPTH
       else Some maxDepth.

End BackfillDepth.

(* ===================================================================== *)
(** * Theorems *)
(* ===================================================================== *)
(* ===================================================================== *)

(* ------------------------------------------------------------------- *)
(** ** Store: [insertPosts] *)

Module StoreFacts.

Import Store.

Lemma do_update_set_excluded {blob} (old row : PostRow blob) :
  do_update_set old row = row.
Proof. destruct row; reflexivity. Qed.

Lemma upsert_row_lookup {blob} (tbl : gmap (string * string) (PostRow blob)) (row : PostRow blob) k :
  upsert_row tbl row !! k =
  if decide ((r_creator row, r_rkey row) = k) then Some row else tbl !! k.
Proof.
  unfold upsert_row.
  destruct (tbl !! (r_creator row, r_rkey row)) eqn:E;
    [rewrite do_update_set_excluded|];
    (destruct (decide ((r_creator row, r_rkey row) = k)) as [<-|Hne];
     [apply lookup_insert_eq | rewrite lookup_insert_ne; auto]).
Qed.

Lemma insertPosts_snoc {blob} (fv : vector -> blob) tbl posts p :
  insertPosts fv tbl (posts ++ [p]) = upsert_row (insertPosts fv tbl posts) (values_row fv p).
Proof. unfold insertPosts. rewrite fold_left_app. reflexivity. Qed.

Lemma last_with_key_snoc k posts p :
  last_with_key k (posts ++ [p]) =
  if decide (post_key p = k) then Some p else last_with_key k posts.
Proof.
  induction posts as [|q qs IH]; simpl.
  - destruct (decide (post_key p = k)); reflexivity.
  - rewrite IH. destruct (decide (post_key p = k)); reflexivity.
Qed.

(** C1 (amended).  After [insertPosts] a key's row is exactly the values
    row of the batch's last post with that key, in every column, the
    embeddings included: a [null] embedding in the incoming post replaces a
    stored one.  Keys absent from the batch keep their row. *)
Theorem insertPosts_last_writer_wins_all_columns {blob} (fv : vector -> blob)
    (tbl : gmap (string * string) (PostRow blob)) (posts : list Post) (k : string * string) :
  insertPosts fv tbl posts !! k =
  match last_with_key k posts with
  | Some p => Some (values_row fv p)
  | None => tbl !! k
  end.
Proof.
  induction posts as [|p ps IH] using rev_ind; [reflexivity|].
  rewrite insertPosts_snoc, upsert_row_lookup, last_with_key_snoc.
  unfold post_key. simpl.
  destruct (decide ((creator p, rkey p) = k)); [reflexivity|exact IH].
Qed.

(** The sample post used below. *)
Definition sample_post (e : option vector) : Post :=
  mkPost "did:plc:alice" "3lk4aaaaaaaaa" 1700000000000 "hello" e None None None None
         None None None None self None.

(** C1 (counterexample).  A stored non-null embedding is erased by an
    upsert of the same key whose incoming embedding is [null]. *)
Lemma insertPosts_erases_embedding :
  let tbl := insertPosts (fun v : vector => v) ∅ [sample_post (Some [1%Z; 2%Z])] in
  (r_embedding <$> tbl !! ("did:plc:alice", "3lk4aaaaaaaaa")) = Some (Some [1%Z; 2%Z]) /\
  (r_embedding <$> insertPosts (fun v : vector => v) tbl [sample_post None]
                     !! ("did:plc:alice", "3lk4aaaaaaaaa")) = Some None.
Proof.
  split; vm_compute; reflexivity.
Qed.

End StoreFacts.

(* ------------------------------------------------------------------- *)
(** ** RPC manager *)

Module XrpcFacts.

Import Xrpc.

(** A [503] response error whose text carries no transient-network marker. *)
Definition err503 : RpcError :=
  mkRpcError true "XRPCError: 503 Service Unavailable" false None (Some 503%Z).

(** C3 (amended).  For an error with a retryable status, no usable
    [rate-limit-reset] header, no [tcp]/[network]/[dns] marker and not a
    [TypeError], [shouldRetry] at attempt [a] retries after sleeping
    [2.9^(a+1)] seconds when [a < 5], and declines (the error is thrown)
    when [a >= 5]. *)
Theorem shouldRetry_retryable_status (now : Z) (e : RpcError) (a : nat) (s : Z)
    (Hobj : is_object e = true)
    (Htcp : JsString.includes (JsString.toLowerCase (to_string e)) "tcp" = false)
    (Hnet : JsString.includes (JsString.toLowerCase (to_string e)) "network" = false)
    (Hdns : JsString.includes (JsString.toLowerCase (to_string e)) "dns" = false)
    (Htype : is_type_error e = false)
    (Hreset : rate_limit_reset e = None \/ rate_limit_reset e = Some 0%Z)
    (Hstatus : status e = Some s)
    (Hretryable : In s retryableStatusCodes) :
  shouldRetry now e a =
  if (a <? maxRetries)%nat then (true, Some (status_backoff_ms a)) else (false, None).
Proof.
  unfold shouldRetry. rewrite Hobj, Htcp, Hnet, Hdns, Htype. simpl.
  assert (Hst : shouldRetry_status e a =
                if (a <? maxRetries)%nat then (true, Some (status_backoff_ms a))
                else (false, None)).
  { unfold shouldRetry_status. rewrite Hstatus.
    assert (Hex : existsb (Z.eqb s) retryableStatusCodes = true).
    { apply existsb_exists. exists s. split; [exact Hretryable | apply Z.eqb_refl]. }
    rewrite Hex.
    destruct (maxRetries <=? a)%nat eqn:Hle; destruct (a <? maxRetries)%nat eqn:Hlt;
      try reflexivity;
      apply Nat.leb_le in Hle || apply Nat.leb_gt in Hle;
      apply Nat.ltb_lt in Hlt || apply Nat.ltb_ge in Hlt; lia. }
  destruct Hreset as [-> | ->]; exact Hst.
Qed.

Lemma shouldRetry_retryable_status_witness :
  shouldRetry 0 err503 0 = (true, Some (status_backoff_ms 0)).
Proof.
  apply (shouldRetry_retryable_status 0 err503 0 503);
    try reflexivity; [left; reflexivity | simpl; tauto].
Defined.

(** C3 (counterexample).  Seven [503] failures in a row, then a success:
    [query] calls [fn] eight times (seven retries, more than five), never
    throws, and sleeps 2.9 s (not 3 s) before every retry: each retry enters
    [query] afresh with [attempt = 0]. *)
Lemma query_retries_beyond_five :
  query 0 (repeat (Err err503) 7 ++ [Ok tt])%list
  = (Success tt, repeat (status_backoff_ms 0) 7, 8%nat) /\
  (status_backoff_ms 0 == 2900)%Q /\ ~ (status_backoff_ms 0 == 3000)%Q.
Proof.
  split; [reflexivity|]. split; [reflexivity|]. unfold Qeq; simpl; discriminate.
Qed.

(** C8 (code bug).  A DID whose resolution fails with
    [ImproperContentTypeError] gets [null] cached, yet the next call for it
    resolves again: [if (fromCache)] treats the cached [null] as a miss.
    A DID that does not exist ([resolve] gives [null]) gets nothing cached
    at all. *)
Theorem getServiceForDid_null_cache_not_used (resolve : string -> Resolution)
    (cache : Cache) (did : string)
    (Hmiss : cache !! did = None)
    (Hneg : resolve did = ResolveError "ImproperContentTypeError") :
  let '(r1, cache1, calls1) := getServiceForDid resolve cache did in
  let '(r2, _, calls2) := getServiceForDid resolve cache1 did in
  r1 = ServiceOk None /\ cache1 !! did = Some None /\ calls1 = 1%nat /\
  r2 = ServiceOk None /\ calls2 = 1%nat /\
  (forall resolve' : string -> Resolution, resolve' did = Resolved None ->
     getServiceForDid resolve' cache did = (ServiceOk None, cache, 1%nat)).
Proof.
  unfold getServiceForDid. rewrite Hmiss, Hneg. simpl.
  rewrite lookup_insert_eq. simpl.
  repeat split.
  intros resolve' Hnull. rewrite ?Hmiss, Hnull. reflexivity.
Qed.

Definition resolver_improper (did : string) : Resolution :=
  ResolveError "ImproperContentTypeError".

Lemma getServiceForDid_null_cache_not_used_witness :
  (∅ : Cache) !! "did:web:example.com" = None /\
  resolver_improper "did:web:example.com" = ResolveError "ImproperContentTypeError" /\
  (let '(r1, cache1, calls1) := getServiceForDid resolver_improper ∅ "did:web:example.com" in
   let '(r2, _, calls2) := getServiceForDid resolver_improper cache1 "did:web:example.com" in
   r1 = ServiceOk None /\ cache1 !! "did:web:example.com" = Some None /\ calls1 = 1%nat /\
   r2 = ServiceOk None /\ calls2 = 1%nat /\
   (forall resolve' : string -> Resolution, resolve' "did:web:example.com" = Resolved None ->
      getServiceForDid resolve' ∅ "did:web:example.com" = (ServiceOk None, ∅, 1%nat))).
Proof.
  split; [reflexivity|]. split; [reflexivity|].
  exact (getServiceForDid_null_cache_not_used resolver_improper ∅ "did:web:example.com"
           eq_refl eq_refl).
Defined.

End XrpcFacts.

(* ------------------------------------------------------------------- *)
(** ** Repository walk: revision skip *)

Module RepoFacts.

Import Backfill.

(** The collection and record key of an MST entry, as [key.split("/")]. *)
Definition entry_collection (e : MstEntry) : string := nth 0 (split_slash (key e)) "".
Definition entry_rkey (e : MstEntry) : option string := nth_error (split_slash (key e)) 1.

(** The URI the walk builds for an entry. *)
Definition entry_uri (did : string) (e : MstEntry) : string :=
  "at://" ++ did ++ "/" ++ entry_collection e ++ "/"
  ++ match entry_rkey e with Some k => k | None => "undefined" end.

(** The record pushed for an entry (its block decoded). *)
Definition entry_collected (did : string) (isOwnRepo : bool) (e : MstEntry) : Collected :=
  mkCollected (entry_uri did e) (entry_collection e)
              (match block e with Some r => r | None => VOther end)
              (if String.eqb (entry_collection e) POST
               then Some (mkInclusion (if isOwnRepo then self else by_follow) None)
               else None).


(** The entry's block is in the block map and [decodeCbor] accepts it. *)
Definition decodes (e : MstEntry) : bool :=
  match block e with Some v => negb (undecodable v) | None => false end.



Lemma collect_cons did isOwnRepo rev collections e es :
  collect did isOwnRepo rev collections (e :: es) =
  if negb (mem (entry_collection e) collections)
     || negb (mem (entry_collection e) processors_keys)
  then collect did isOwnRepo rev collections es else
  match block e with
  | None => None
  | Some record =>
      if undecodable record then None else
      if skip_old isOwnRepo rev (entry_collection e) (entry_rkey e)
      then collect did isOwnRepo rev collections es else
      option_map (cons (mkCollected (entry_uri did e) (entry_collection e) record
                          (if String.eqb (entry_collection e) POST
                           then Some (mkInclusion (if isOwnRepo then self else by_follow) None)
                           else None)))
                 (collect did isOwnRepo rev collections es)
  end.
Proof. reflexivity. Qed.

Lemma entry_collected_some did isOwnRepo e v :
  block e = Some v ->
  entry_collected did isOwnRepo e =
  mkCollected (entry_uri did e) (entry_collection e) v
              (if String.eqb (entry_collection e) POST
               then Some (mkInclusion (if isOwnRepo then self else by_follow) None)
               else None).
Proof. intros Hv. unfold entry_collected. rewrite Hv. reflexivity. Qed.





Definition sample_record : PostRecord := mkPostRecord "2024-01-01T00:00:00Z" "hi" None.

(** The walk of scenario S5 with a TID-shaped revision, in the user's own
    repo: an old follow, an old post and a newer post. *)
Definition own_entries : list MstEntry :=
  [mkEntry "app.bsky.graph.follow/3lk4aaaaaaaaa" (Some (VFollow "did:plc:bob"));
   mkEntry "app.bsky.feed.post/3lk4aaaaaaaaa" (Some (VPost sample_record));
   mkEntry "app.bsky.feed.post/3lk4zzzaaaaaa" (Some (VPost sample_record))].

(** Every URI accepted. *)
Definition all_uris_ok (_ : string) : bool := true.



End RepoFacts.

(* ------------------------------------------------------------------- *)
(** ** [logarithmicScale] and the thread depth bound *)

Module ScaleFacts.

Import Scale.
Open Scope R_scope.

Lemma exp_le_mono (x y : R) : x <= y -> exp x <= exp y.
Proof. intros [H| ->]; [left; apply exp_increasing; exact H | right; reflexivity]. Qed.

Lemma round_between (x : R) (a b : Z) :
  IZR a <= x + / 2 -> x + / 2 < IZR b + 1 -> (a <= round x <= b)%Z.
Proof.
  intros Ha Hb. unfold round.
  destruct (base_Int_part (x + / 2)) as [H1 H2].
  split.
  - assert (IZR a - 1 < IZR (Int_part (x + / 2))) by lra.
    assert (IZR (a - 1) < IZR (Int_part (x + / 2))) by (rewrite minus_IZR; lra).
    apply lt_IZR in H0. lia.
  - assert (IZR (Int_part (x + / 2)) < IZR (b + 1)) by (rewrite plus_IZR; lra).
    apply lt_IZR in H. lia.
Qed.

Lemma round_eq (x : R) (n : Z) :
  IZR n <= x + / 2 -> x + / 2 < IZR n + 1 -> round x = n.
Proof. intros H1 H2. pose proof (round_between x n n H1 H2). lia. Qed.


Lemma ln_pos_gt1 (x : R) : 1 < x -> 0 < ln x.
Proof. intros H. rewrite <- ln_1. apply ln_increasing; lra. Qed.

Lemma ln_le_mono (x y : R) : 0 < x -> x <= y -> ln x <= ln y.
Proof. intros H [H'| ->]; [left; apply ln_increasing; lra | lra]. Qed.

Lemma ln_div (x y : R) : 0 < x -> 0 < y -> ln (x / y) = ln x - ln y.
Proof. intros Hx Hy. unfold Rdiv. rewrite ln_mult, ln_Rinv; [ring | lra | lra | apply Rinv_0_lt_compat; lra]. Qed.

Ltac ln_expand := repeat (rewrite ln_mult by lra).

(** The interpolation at [reply_count = 50] lies in [[5.5, 6.5)]. *)
Lemma logarithmicScale_50_bounds :
  11 / 2 <= logarithmicScale (5, 200) (20, 3) 50 < 13 / 2.
Proof.
  unfold logarithmicScale.
  destruct (Rle_dec 50 5); [lra|].
  destruct (Rle_dec 200 50); [lra|].
  destruct (Req_EM_T 5 200); [lra|].
  destruct (Req_EM_T 20 3); [lra|].
  cbv beta iota zeta.
  assert (E20 : ln 20 = ln 2 + (ln 2 + ln 5))
    by (replace 20 with (2 * (2 * 5)) by lra; ln_expand; reflexivity).
  assert (E50 : ln 50 = ln 2 + (ln 5 + ln 5))
    by (replace 50 with (2 * (5 * 5)) by lra; ln_expand; reflexivity).
  assert (E200 : ln 200 = ln 2 + (ln 2 + (ln 2 + (ln 5 + ln 5))))
    by (replace 200 with (2 * (2 * (2 * (5 * 5)))) by lra; ln_expand; reflexivity).
  (* 5 <= 8 and 4 <= 5 *)
  assert (I1 : ln 5 <= ln 2 + (ln 2 + ln 2)).
  { replace (ln 2 + (ln 2 + ln 2)) with (ln (2 * (2 * 2))) by (ln_expand; reflexivity).
    apply ln_le_mono; lra. }
  assert (I2 : ln 2 + ln 2 <= ln 5).
  { replace (ln 2 + ln 2) with (ln (2 * 2)) by (ln_expand; reflexivity).
    apply ln_le_mono; lra. }
  (* 11^3 <= 2^5 * 5 * 3^2 *)
  assert (I3 : ln 11 + (ln 11 + ln 11) <=
               ln 2 + (ln 2 + (ln 2 + (ln 2 + (ln 2 + (ln 5 + (ln 3 + ln 3))))))).
  { rewrite <- 2!ln_mult by lra.
    replace (ln 2 + (ln 2 + (ln 2 + (ln 2 + (ln 2 + (ln 5 + (ln 3 + ln 3)))))))
      with (ln (2 * (2 * (2 * (2 * (2 * (5 * (3 * 3)))))))) by (ln_expand; reflexivity).
    apply ln_le_mono; lra. }
  (* 2^9 * 5^2 * 3^3 < 13^5 *)
  assert (I4 : ln 2 + (ln 2 + (ln 2 + (ln 2 + (ln 2 + (ln 2 + (ln 2 + (ln 2 + (ln 2 + (ln 5 + (ln 5 + (ln 3 + (ln 3 + ln 3)))))))))))) < ln 13 + (ln 13 + (ln 13 + (ln 13 + ln 13)))).
  { replace (ln 13 + (ln 13 + (ln 13 + (ln 13 + ln 13)))) with (ln (13 * (13 * (13 * (13 * 13))))) by (ln_expand; reflexivity).
    replace (ln 2 + (ln 2 + (ln 2 + (ln 2 + (ln 2 + (ln 2 + (ln 2 + (ln 2 + (ln 2 + (ln 5 + (ln 5 + (ln 3 + (ln 3 + ln 3))))))))))))) with (ln (2 * (2 * (2 * (2 * (2 * (2 * (2 * (2 * (2 * (5 * (5 * (3 * (3 * 3)))))))))))))) by (ln_expand; reflexivity).
    apply ln_increasing; lra. }
  assert (P2 : 0 < ln 2) by (apply ln_pos_gt1; lra).
  assert (P3 : ln 3 < ln 20) by (apply ln_increasing; lra).
  rewrite E20, E50, E200 in *.
  set (t := (ln 2 + (ln 5 + ln 5) - ln 5) / (ln 2 + (ln 2 + (ln 2 + (ln 5 + ln 5))) - ln 5)).
  assert (Ht : t * (3 * ln 2 + ln 5) = ln 2 + ln 5)
    by (unfold t; field; lra).
  assert (Tle : t <= 2 / 3) by nra.
  assert (Tge : 3 / 5 <= t) by nra.
  set (D := 2 * ln 2 + ln 5 - ln 3).
  assert (HD : 0 < D) by (unfold D; lra).
  assert (M1 : t * D <= 2 / 3 * D) by nra.
  assert (M2 : 3 / 5 * D <= t * D) by nra.
  replace (ln 2 + (ln 2 + ln 5) + t * (ln 3 - (ln 2 + (ln 2 + ln 5))))
    with (ln 2 + (ln 2 + ln 5) - t * D) by (unfold D; ring).
  pose proof (exp_ln (11 / 2)) as X1. pose proof (exp_ln (13 / 2)) as X2.
  rewrite ln_div in X1, X2 by lra.
  split.
  - rewrite <- X1 by lra. apply exp_le_mono. unfold D in *. lra.
  - rewrite <- X2 by lra. apply exp_increasing. unfold D in *. lra.
Qed.

Lemma maxThreadDepth_50 : Backfill.maxThreadDepth (Some 50%Z) = 6%Z.
Proof.
  unfold Backfill.maxThreadDepth. pose proof logarithmicScale_50_bounds.
  apply round_eq; simpl IZR; lra.
Qed.




End ScaleFacts.

(* ------------------------------------------------------------------- *)
(** ** Descendant walk *)

Module ThreadFacts.

Import Backfill.

Lemma ThreadNode_deep_ind (P : ThreadNode -> Prop)
  (Htv : forall u r sub, Forall P sub -> P (ThreadViewPost u r sub))
  (Hother : P OtherReply) : forall n, P n.
Proof.
  fix IH 1. intros [u r sub|].
  - apply Htv.
    exact ((fix go (l : list ThreadNode) : Forall P l :=
              match l with
              | [] => @List.Forall_nil _ P
              | c :: cs => @List.Forall_cons _ P c cs (IH c) (go cs)
              end) sub).
  - exact Hother.
Qed.

Lemma visit_tv src bd mtd u r sub td :
  visit src bd mtd (ThreadViewPost u r sub) td =
  descendant src bd u r ::
  (if (mtd <? td + 1)%Z then [] else flat_map (fun x => visit src bd mtd x (td + 1)) sub).
Proof.
  cbn [visit]. destruct (mtd <? td + 1)%Z; [reflexivity|]. reflexivity.
Qed.

Lemma visit_depth src bd mtd :
  forall n td e, (td <= mtd)%Z -> In e (visit src bd mtd n td) ->
  exists d, node_at n td d (q_uri e) /\ (td <= d <= mtd)%Z.
Proof.
  intros n. induction n as [u r sub IH|] using ThreadNode_deep_ind;
    intros td e Hle Hin.
  - rewrite visit_tv in Hin. destruct Hin as [<-|Hin].
    + exists td. split; [constructor | lia].
    + destruct (mtd <? td + 1)%Z eqn:Hlt; [contradiction|].
      apply Z.ltb_ge in Hlt.
      apply in_flat_map in Hin. destruct Hin as [c [Hc Hin]].
      rewrite List.Forall_forall in IH.
      destruct (IH c Hc (td + 1)%Z e Hlt Hin) as [d [Hd Hb]].
      exists d. split; [econstructor; eassumption | lia].
  - contradiction.
Qed.

Lemma processPostReplies_depth src bd mtd replies td e :
  In e (processPostReplies src bd mtd replies td) ->
  exists n d, In n replies /\ node_at n td d (q_uri e) /\ (td <= d <= mtd)%Z.
Proof.
  unfold processPostReplies. destruct (mtd <? td)%Z eqn:Hlt; [contradiction|].
  apply Z.ltb_ge in Hlt. intros Hin.
  apply in_flat_map in Hin. destruct Hin as [n [Hn Hin]].
  destruct (visit_depth src bd mtd n td e Hlt Hin) as [d Hd].
  exists n, d. split; assumption.
Qed.

(** C5 (amended): every descendant that [processPostReplies] enqueues for a
    thread (walk started at thread depth 1) is a [threadViewPost] of the
    thread at a thread depth between 1 and [maxThreadDepth]; the bound the
    engine computes for [replyCount = 50] is 6, and a linear thread of 50
    nested replies has exactly 6 descendants enqueued. *)
Theorem processPostReplies_depth_bound :
  (forall sourceUri backfillDepth mtd replies e,
     In e (processPostReplies sourceUri backfillDepth mtd replies 1) ->
     exists n d, In n replies /\ node_at n 1 d (q_uri e) /\ (1 <= d <= mtd)%Z) /\
  maxThreadDepth (Some 50%Z) = 6%Z /\
  (forall sourceUri backfillDepth u,
     length (processPostReplies sourceUri backfillDepth (maxThreadDepth (Some 50%Z))
               (chain u 50) 1) = 6%nat).
Proof.
  split; [|split].
  - intros src bd mtd replies e. apply processPostReplies_depth.
  - apply ScaleFacts.maxThreadDepth_50.
  - intros src bd u. rewrite ScaleFacts.maxThreadDepth_50. vm_compute. reflexivity.
Qed.

Lemma processPostReplies_depth_bound_witness :
  In (descendant "at://src" 0%Z "at://reply" None)
     (processPostReplies "at://src" 0%Z 2%Z (chain "at://reply" 3) 1%Z) /\
  exists n d, In n (chain "at://reply" 3) /\
    node_at n 1 d (q_uri (descendant "at://src" 0%Z "at://reply" None)) /\ (1 <= d <= 2)%Z.
Proof.
  split.
  - vm_compute. left. reflexivity.
  - apply (proj1 processPostReplies_depth_bound "at://src" 0%Z 2%Z (chain "at://reply" 3)).
    vm_compute. left. reflexivity.
Defined.

(** C5 (counterexample): the bound for [replyCount = 50] is not 9, and the
    linear 50-reply thread is not walked to depth 9. *)
Theorem maxThreadDepth_50_is_not_9 :
  maxThreadDepth (Some 50%Z) <> 9%Z /\
  length (processPostReplies "at://src" 0%Z (maxThreadDepth (Some 50%Z))
            (chain "at://reply" 50) 1%Z) <> 9%nat.
Proof.
  rewrite ScaleFacts.maxThreadDepth_50. split; [discriminate | vm_compute; discriminate].
Qed.

End ThreadFacts.

(* ------------------------------------------------------------------- *)
(** ** [BackgroundQueue.add] and [maxQueueSize] *)

Module QueueFacts.

Import Queue.

Definition one_slot : QueueOptions := mkQueueOptions 1 None (Some 1).

(** C6: with [hardConcurrency = 1] and [maxQueueSize = 1], four [add] calls
    (the last two suspend), then the completion of the first task: the
    [_drain] run by its [finally] shifts the queued task and
    [_notifyWaiting] resolves both suspended calls while [size] is still 0,
    so once their continuations run two tasks are waiting, above
    [maxQueueSize]. *)
Theorem add_overflows_after_one_completion :
  let s := @run nat one_slot init
             [CallAdd 1; CallAdd 2; CallAdd 3; CallAdd 4; Settle 0 Done; Microtask; Microtask] in
  _queue s = [3; 4] /\ (size s > 1)%nat /\ maxQueueSize one_slot = Some 1.
Proof. vm_compute. split; [reflexivity | split; [lia | reflexivity]]. Qed.

End QueueFacts.

(* ------------------------------------------------------------------- *)
(** ** [searchPostsText] *)

Module SearchFacts.

Import Store Search.

Section Lemmas.

Context {blob : Type}.

Lemma insert_by_in ord (r x : PostRow blob) l :
  In x (insert_by ord r l) <-> x = r \/ In x l.
Proof.
  induction l as [|y ys IH]; cbn [insert_by].
  - simpl. intuition congruence.
  - destruct (match ord with asc => _ | desc => _ end); simpl.
    + intuition congruence.
    + rewrite IH. intuition congruence.
Qed.

Lemma order_by_in ord (x : PostRow blob) l : In x (order_by ord l) <-> In x l.
Proof.
  unfold order_by. rewrite (in_rev l).
  induction (rev l) as [|y ys IH]; simpl; [reflexivity|].
  rewrite insert_by_in, IH. intuition congruence.
Qed.

Lemma insert_by_length ord (r : PostRow blob) l :
  length (insert_by ord r l) = S (length l).
Proof.
  induction l as [|y ys IH]; cbn [insert_by]; [reflexivity|].
  destruct (match ord with asc => _ | desc => _ end); simpl; [reflexivity | rewrite IH; reflexivity].
Qed.

Lemma order_by_length ord (l : list (PostRow blob)) : length (order_by ord l) = length l.
Proof.
  unfold order_by. rewrite <- (length_rev l).
  induction (rev l) as [|y ys IH]; simpl; [reflexivity|].
  rewrite insert_by_length, IH. reflexivity.
Qed.

Lemma limit_all n (l : list (PostRow blob)) :
  (n < 0 \/ Z.of_nat (length l) <= n)%Z -> limit n l = l.
Proof.
  intros H. unfold limit. destruct (n <? 0)%Z eqn:Hn; [reflexivity|].
  apply Z.ltb_ge in Hn. apply firstn_all2. lia.
Qed.

Lemma limit_length n (l : list (PostRow blob)) :
  (0 <= n)%Z -> (length (limit n l) <= Z.to_nat n)%nat.
Proof.
  intros H. unfold limit. destruct (n <? 0)%Z eqn:Hn; [apply Z.ltb_lt in Hn; lia|].
  apply firstn_le_length.
Qed.

End Lemmas.

Definition before_eq {blob} (ord : Order) (a b : PostRow blob) : Prop :=
  match ord with
  | asc => (r_createdAt a <= r_createdAt b)%Z
  | desc => (r_createdAt b <= r_createdAt a)%Z
  end.

Section Sorting.

Context {blob : Type}.

Lemma insert_by_sorted ord (r : PostRow blob) l :
  Sorted (before_eq ord) l -> Sorted (before_eq ord) (insert_by ord r l).
Proof.
  induction l as [|x xs IH]; intros Hs; cbn [insert_by]; [repeat constructor|].
  destruct (match ord with asc => _ | desc => _ end) eqn:Eb.
  - constructor; [exact Hs|]. constructor.
    destruct ord; simpl in *; apply Z.ltb_lt in Eb; lia.
  - apply Sorted_inv in Hs as [Hxs Hhd]. constructor; [exact (IH Hxs)|].
    destruct xs as [|y ys]; cbn [insert_by].
    + constructor. destruct ord; simpl in *; apply Z.ltb_ge in Eb; lia.
    + destruct (match ord with asc => (r_createdAt r <? r_createdAt y)%Z
                          | desc => (r_createdAt y <? r_createdAt r)%Z end);
        constructor; [destruct ord; simpl in *; apply Z.ltb_ge in Eb; lia|].
      apply HdRel_inv in Hhd. exact Hhd.
Qed.

Lemma order_by_sorted ord (l : list (PostRow blob)) : Sorted (before_eq ord) (order_by ord l).
Proof.
  unfold order_by. induction (rev l) as [|x xs IH]; simpl; [constructor|].
  apply insert_by_sorted, IH.
Qed.

Lemma firstn_sorted {T} (R : T -> T -> Prop) n (l : list T) : Sorted R l -> Sorted R (firstn n l).
Proof.
  revert n; induction l as [|x xs IH]; intros n Hs; destruct n; simpl; try constructor.
  - apply Sorted_inv in Hs as [Hxs _]. exact (IH n Hxs).
  - apply Sorted_inv in Hs as [_ Hhd].
    destruct n, xs; simpl; constructor. apply HdRel_inv in Hhd. exact Hhd.
Qed.

Lemma insert_by_perm ord (r : PostRow blob) l : Permutation (insert_by ord r l) (r :: l).
Proof.
  induction l as [|x xs IH]; cbn [insert_by]; [reflexivity|].
  destruct (match ord with asc => _ | desc => _ end); [reflexivity|].
  rewrite IH. apply perm_swap.
Qed.

Lemma order_by_perm ord (l : list (PostRow blob)) : Permutation (order_by ord l) l.
Proof.
  unfold order_by. rewrite (Permutation_rev l) at 2.
  induction (rev l) as [|x xs IH]; simpl; [reflexivity|].
  rewrite insert_by_perm. apply perm_skip, IH.
Qed.

End Sorting.

Lemma holds_and a b : holds (sql_and a b) = holds a && holds b.
Proof. destruct a, b; reflexivity. Qed.

Lemma holds_or a b : holds (sql_or a b) = holds a || holds b.
Proof. destruct a, b; reflexivity. Qed.

Lemma holds_like_some v p : holds (like (Some v) p) = like_match p v.
Proof. unfold like. destruct (like_match p v); reflexivity. Qed.

(** The row of a post with the given [createdAt] and text. *)
Definition row_at (rkey : string) (createdAt : Z) (text : string) : PostRow vector :=
  values_row (fun v : vector => v)
    (mkPost "did:plc:alice" rkey createdAt text None None None None None None
            None None None self None).

Definition no_filters (results : Z) : SearchPostsOptions :=
  mkSearchOptions results None None None None None false None.

(** The text part of the search, as the claim reads it: for a non-empty
    query, [text LIKE %query%] or, with [includeAltText], [altText LIKE
    %query%]; no condition otherwise. *)
Definition query_match {blob} (text : option string) (includeAltText : bool)
                       (row : PostRow blob) : bool :=
  if truthy text then
    like_match ("%" ++ template text ++ "%") (r_text row)
    || (includeAltText && holds (like (r_altText row) ("%" ++ template text ++ "%")))
  else true.

(** C7 (amended): with valid dates, [searchPostsText] keeps exactly the
    rows that satisfy the scalar filters and, for a non-empty query, whose
    [text] is [LIKE %query%] or (with [includeAltText]) whose [altText] is;
    with an empty query and no [includeAltText] the filters alone decide.
    The kept rows are ordered by [createdAt] and cut to the first
    [results]; when [results] does not cut, the result is exactly that set.
    Both [createdAt] bounds are strict: of rows at [T - d], [T], [T + d],
    an empty-query search with [before = T], [after = T - 2d] and
    [results >= 1] returns the [T - d] row alone. *)
Theorem searchPostsText_filters {blob : Type} :
  (forall dateTime (table : list (PostRow blob)) text o cond,
     options_condition dateTime o = Some cond ->
     (truthy text = true \/ includeAltText o = false) ->
     exists sel,
       searchPostsText dateTime table text o =
         Some (if (results o <? 0)%Z then sel else firstn (Z.to_nat (results o)) sel) /\
       Sorted (before_eq (match order o with Some x => x | None => desc end)) sel /\
       Permutation sel
         (List.filter (fun row => holds (cond row) && query_match text (includeAltText o) row)
                      table)) /\
  (forall dateTime (table : list (PostRow blob)) text o l,
     searchPostsText dateTime table text o = Some l ->
     (0 <= results o)%Z -> (length l <= Z.to_nat (results o))%nat) /\
  (forall dateTime b a T d results ord (r1 r2 r3 : PostRow blob),
     dateTime b = Some T -> dateTime a = Some (T - 2 * d)%Z -> (0 < d)%Z ->
     r_createdAt r1 = (T - d)%Z -> r_createdAt r2 = T -> r_createdAt r3 = (T + d)%Z ->
     (1 <= results)%Z ->
     searchPostsText dateTime [r1; r2; r3] (Some "")
       (mkSearchOptions results None None None (Some b) (Some a) false ord)
     = Some [r1]).
Proof.
  split; [|split].
  - intros dateTime table text o cond Hcond Hcase.
    unfold searchPostsText. rewrite Hcond.
    eexists; split; [reflexivity|]. split; [apply order_by_sorted|].
    rewrite order_by_perm. erewrite List.filter_ext; [reflexivity|]. intros row.
    unfold text_condition, query_match.
    destruct (truthy text) eqn:Ht, (includeAltText o) eqn:Hb; simpl orb.
    + cbn [app eb_or fold_left]. rewrite holds_and, holds_or, holds_like_some.
      apply andb_comm.
    + cbn [app eb_or fold_left]. rewrite holds_and, holds_like_some.
      rewrite orb_false_r. apply andb_comm.
    + destruct Hcase; discriminate.
    + rewrite andb_true_r. reflexivity.
  - intros dateTime table text o l Hs Hr. unfold searchPostsText in Hs.
    destruct (options_condition dateTime o); [|discriminate].
    injection Hs as <-. apply limit_length. exact Hr.
  - intros dateTime b a T d res ord r1 r2 r3 Hb Ha Hd H1 H2 H3 Hres.
    unfold searchPostsText, options_condition. cbn [before after toDateOrNull].
    rewrite Hb, Ha. cbn - [order_by limit].
    assert (E1 : (T - d <? T)%Z = true) by (apply Z.ltb_lt; lia).
    assert (E2 : (T - 2 * d <? T - d)%Z = true) by (apply Z.ltb_lt; lia).
    assert (E3 : (T <? T)%Z = false) by (apply Z.ltb_ge; lia).
    assert (E4 : (T + d <? T)%Z = false) by (apply Z.ltb_ge; lia).
    rewrite !andb_false_r. cbn - [order_by limit].
    rewrite H1, H2, H3, E1, E2, E3, E4. cbn - [limit].
    rewrite limit_all by (simpl; lia). reflexivity.
Qed.

Lemma searchPostsText_filters_witness :
  searchPostsText (fun _ => None)
    [row_at "a" 1 "hello world"; row_at "b" 2 "world peace"; row_at "c" 3 "nothing"]
    (Some "world") (no_filters 1) = Some [row_at "b" 2 "world peace"] /\
  searchPostsText (fun s => if String.eqb s "T" then Some 1000%Z else Some 800%Z)
    [row_at "a" 900 ""; row_at "b" 1000 ""; row_at "c" 1100 ""] (Some "")
    (mkSearchOptions 10 None None None (Some "T") (Some "T-2d") false None)
  = Some [row_at "a" 900 ""].
Proof.
  split.
  - destruct (proj1 searchPostsText_filters (fun _ => None)
                [row_at "a" 1 "hello world"; row_at "b" 2 "world peace"; row_at "c" 3 "nothing"]
                (Some "world") (no_filters 1) (fun _ => STrue) eq_refl (or_introl eq_refl))
      as [sel [Hl _]].
    rewrite Hl. vm_compute in Hl |- *. injection Hl as <-. reflexivity.
  - apply (proj2 (proj2 searchPostsText_filters)) with (T := 1000%Z) (d := 100%Z);
      reflexivity || lia.
Defined.

(** C7 (counterexample): [.limit(results)] truncates.  Two rows satisfy
    the (empty) filters of an empty-query search with [results = 1], and
    only one is returned. *)
Theorem searchPostsText_truncates :
  let table := [row_at "a" 1 "x"; row_at "b" 2 "y"] in
  searchPostsText (fun _ => None) table (Some "") (no_filters 1) = Some [row_at "b" 2 "y"] /\
  options_condition (blob := vector) (fun _ => None) (no_filters 1) = Some (fun _ => STrue).
Proof. split; vm_compute; reflexivity. Qed.

End SearchFacts.

(* ------------------------------------------------------------------- *)
(** ** [processPost] and [seenPosts] *)

Module EngineFacts.

Import Backfill Engine.

Section Dedup.

Variable h32 : string -> Z.
Variable parseAtUri : string -> option (string * string * string).
Variable createdAtTime : string -> option Z.

Lemma after_record_shape st uri o r :
  seenPosts (after_record h32 parseAtUri createdAtTime st uri o r) = {[ h32 uri ]} ∪ seenPosts st /\
  (toWrite (after_record h32 parseAtUri createdAtTime st uri o r) = toWrite st \/
   exists b, b_uri b = uri /\
     toWrite (after_record h32 parseAtUri createdAtTime st uri o r) = (toWrite st ++ [b])%list).
Proof.
  unfold after_record.
  destruct (createdAtTime (pr_createdAt r)) as [t|]; [|simpl; auto].
  destruct (t =? 0)%Z; [simpl; auto|].
  destruct (parseAtUri uri) as [[[repo c] rk]|]; [|simpl; auto].
  simpl. split; [reflexivity|]. right. eexists. split; [|reflexivity]. reflexivity.
Qed.

Lemma bound_mono (x h : Z) (s : gset Z) :
  ((if bool_decide (x ∈ s) then 1 else 0) <= if bool_decide (x ∈ {[h]} ∪ s) then 1 else 0)%nat.
Proof. repeat case_bool_decide; set_solver || lia. Qed.

Section OneUri.

Variable uri : string.

(** At most one buffered post for [uri], none before its hash is in
    [seenPosts], and no call for [uri] waiting on a fetch. *)
Definition uri_bound (c : Config) : Prop :=
  (inserted (engine c) uri <= if bool_decide (h32 uri ∈ seenPosts (engine c)) then 1 else 0)%nat /\
  Forall (fun p => fst p <> uri) (suspended c).

Lemma after_record_uri_bound st u o r :
  (u = uri -> h32 uri ∉ seenPosts st) ->
  (inserted st uri <= if bool_decide (h32 uri ∈ seenPosts st) then 1 else 0)%nat ->
  (inserted (after_record h32 parseAtUri createdAtTime st u o r) uri
   <= if bool_decide (h32 uri ∈ seenPosts (after_record h32 parseAtUri createdAtTime st u o r))
      then 1 else 0)%nat.
Proof.
  intros Hnew Hb. destruct (after_record_shape st u o r) as [Hs [Hw | [b [Hu Hw]]]];
    unfold inserted in *; rewrite Hs, Hw.
  - pose proof (bound_mono (h32 uri) (h32 u) (seenPosts st)). lia.
  - rewrite List.filter_app, length_app. cbn [List.filter]. rewrite Hu.
    destruct (String.eqb_spec u uri) as [->|Hne]; simpl.
    + specialize (Hnew eq_refl). rewrite bool_decide_false in Hb by exact Hnew.
      rewrite bool_decide_true by set_solver. lia.
    + pose proof (bound_mono (h32 uri) (h32 u) (seenPosts st)). lia.
Qed.

Lemma Forall_remove_nth {T} (P : T -> Prop) (l : list T) k :
  Forall P l -> Forall P (firstn k l ++ skipn (S k) l)%list.
Proof.
  intros H. apply Forall_app. split.
  - rewrite <- (firstn_skipn k l) in H. apply Forall_app in H. exact (proj1 H).
  - rewrite <- (firstn_skipn (S k) l) in H. apply Forall_app in H. exact (proj2 H).
Qed.

Lemma step_uri_bound c s :
  uri_bound c -> (forall o, s = Call uri o -> is_Some (record o)) ->
  uri_bound (step h32 parseAtUri createdAtTime c s).
Proof.
  intros [Hb Hsus] Hrec. destruct s as [u o | k f]; unfold step.
  - unfold processPost_start.
    destruct (maxDepth (engine c) <? depth o)%Z; [split; assumption|].
    destruct (decide (h32 u ∈ seenPosts (engine c))) as [Hin|Hnot]; [split; assumption|].
    destruct (record o) as [r|] eqn:Hr.
    + split; [|exact Hsus]. cbn [engine].
      apply after_record_uri_bound; [intros ->; exact Hnot | exact Hb].
    + split; [exact Hb|]. cbn [suspended]. apply Forall_app. split; [exact Hsus|].
      constructor; [|constructor]. simpl. intros ->.
      destruct (Hrec o eq_refl) as [r' Hr']. congruence.
  - destruct (nth_error (suspended c) k) as [[u o]|] eqn:Hk; [|split; assumption].
    assert (Hu : u <> uri).
    { rewrite List.Forall_forall in Hsus. exact (Hsus (u, o) (nth_error_In _ _ Hk)). }
    split; [|exact (Forall_remove_nth _ _ k Hsus)].
    cbn [engine]. unfold processPost_resume.
    destruct f as [r| |[| |]]; cbn [fst]; try exact Hb.
    apply after_record_uri_bound; [intros E; contradiction | exact Hb].
Qed.

Lemma run_uri_bound c steps :
  uri_bound c -> (forall o, In (Call uri o) steps -> is_Some (record o)) ->
  uri_bound (run h32 parseAtUri createdAtTime c steps).
Proof.
  revert c. induction steps as [|s ss IH]; intros c Hb Hrec; [exact Hb|].
  unfold run. cbn [fold_left]. apply IH.
  - apply step_uri_bound; [exact Hb|]. intros o ->. apply Hrec. left. reflexivity.
  - intros o Hin. apply Hrec. right. exact Hin.
Qed.

End OneUri.

(** C2 (amended): a call that finds the URI's hash in [seenPosts] ends at
    once; a call handed its record checks and marks [seenPosts] in the same
    synchronous run, so in any interleaving of calls where every call for
    [uri] carries its record (calls for other URIs may fetch theirs), at
    most one post is buffered for [uri]. *)
Theorem processPost_with_record_inserts_at_most_once (maxD : Z) steps uri :
  (forall o, In (Call uri o) steps -> is_Some (record o)) ->
  (forall st u o, h32 u ∈ seenPosts st ->
     processPost_start h32 parseAtUri createdAtTime st u o = Ended st) /\
  (inserted (engine (run h32 parseAtUri createdAtTime
                       (mkConfig (mkEngine ∅ [] maxD) []) steps)) uri <= 1)%nat.
Proof.
  intros Hrec. split.
  - intros st u o Hin. unfold processPost_start.
    destruct (maxDepth st <? depth o)%Z; [reflexivity|].
    destruct (decide (h32 u ∈ seenPosts st)); [reflexivity | contradiction].
  - destruct (run_uri_bound uri (mkConfig (mkEngine ∅ [] maxD) []) steps) as [Hb _];
      [split; [apply Nat.le_0_l | constructor] | exact Hrec |].
    etransitivity; [exact Hb|]. case_bool_decide; lia.
Qed.

End Dedup.

Definition sample_parse (_ : string) : option (string * string * string) :=
  Some ("did:plc:bob", POST, "3lk4aaaaaaaaa").

Definition sample_rec : PostRecord := mkPostRecord "2024-01-01T00:00:00.000Z" "hi" None.

Definition opts_with (r : option PostRecord) : ProcessPostOptions :=
  mkOptions (mkInclusion self None) r 0.

Lemma processPost_with_record_inserts_at_most_once_witness :
  let uri := "at://did:plc:bob/app.bsky.feed.post/3lk4aaaaaaaaa" in
  let other := "at://did:plc:carol/app.bsky.feed.post/3lk4aaaaaaaaa" in
  (forall st u o, (fun _ => 7%Z) u ∈ seenPosts st ->
     processPost_start (fun _ => 7%Z) sample_parse (fun _ => Some 1%Z) st u o = Ended st) /\
  (inserted (engine (run (fun _ => 7%Z) sample_parse (fun _ => Some 1%Z)
                       (mkConfig (mkEngine ∅ [] 5) [])
                       [Call other (opts_with None); Call uri (opts_with (Some sample_rec));
                        Settle 0 (FRecord sample_rec); Call uri (opts_with (Some sample_rec))]))
            uri <= 1)%nat.
Proof.
  intros uri other.
  apply processPost_with_record_inserts_at_most_once.
  intros o Hin. repeat destruct Hin as [Hin|Hin]; try contradiction; try discriminate;
    injection Hin; intros; subst; eexists; reflexivity.
Defined.

(** C2 (counterexample): two calls for the same URI that must fetch the
    record both pass the [seenPosts] check before either fetch settles, and
    both buffer the post. *)
Theorem processPost_fetching_calls_insert_twice :
  let uri := "at://did:plc:bob/app.bsky.feed.post/3lk4aaaaaaaaa" in
  inserted (engine (run (fun _ => 7%Z) sample_parse (fun _ => Some 1%Z)
                      (mkConfig (mkEngine ∅ [] 5) [])
                      [Call uri (opts_with None); Call uri (opts_with None);
                       Settle 0 (FRecord sample_rec); Settle 0 (FRecord sample_rec)]))
           uri = 2%nat.
Proof. vm_compute. reflexivity. Qed.

Lemma nth_error_snoc {A} (l : list A) x : nth_error (l ++ [x])%list (length l) = Some x.
Proof. induction l as [|a l IH]; simpl; [reflexivity | exact IH]. Qed.

Lemma remove_snoc {A} (l : list A) x :
  (firstn (length l) (l ++ [x]) ++ skipn (S (length l)) (l ++ [x]))%list = l.
Proof. induction l as [|a l IH]; simpl; [reflexivity | f_equal; exact IH]. Qed.

Section Unmarked.

Variable h32 : string -> Z.
Variable parseAtUri : string -> option (string * string * string).
Variable createdAtTime : string -> option Z.

(** C10: without a record in its options, [processPost] marks the URI's
    hash in [seenPosts] only once a record is obtained.  When the fetch
    throws (any error, [NotFound] included) or yields no record (the
    collection is not [app.bsky.feed.post], the repo is
    [did:plc:z72i7hdynmk6r22z27h6tvur], or the thread view's record is
    invalid), the engine is left as it was, and a later call for the same
    URI passes the dedup check and fetches again. *)
Theorem processPost_unmarked_without_record (c : Config) uri o f :
  record o = None -> (forall r, f <> FRecord r) ->
  (depth o <= maxDepth (engine c))%Z -> h32 uri ∉ seenPosts (engine c) ->
  let c1 := run h32 parseAtUri createdAtTime c
              [Call uri o; Settle (length (suspended c)) f] in
  engine c1 = engine c /\ suspended c1 = suspended c /\
  suspended (step h32 parseAtUri createdAtTime c1 (Call uri o))
    = (suspended c ++ [(uri, o)])%list /\
  (forall thread getRecord repo collection rkey,
     parseAtUri uri = Some (repo, collection, rkey) ->
     (collection <> POST -> fetchPost parseAtUri uri thread getRecord = FEmpty) /\
     (repo = BSKY_APP_DID -> fetchPost parseAtUri uri thread getRecord = FEmpty) /\
     (collection = POST -> repo <> BSKY_APP_DID ->
      thread = TRNotFoundPost \/ thread = TRError NotFound ->
      fetchPost parseAtUri uri thread getRecord = FThrow NotFound)).
Proof.
  intros Hrec Hf Hd Hnot. cbv zeta.
  assert (Hstart : processPost_start h32 parseAtUri createdAtTime (engine c) uri o = AwaitFetch).
  { unfold processPost_start.
    destruct (maxDepth (engine c) <? depth o)%Z eqn:E; [apply Z.ltb_lt in E; lia|].
    destruct (decide (h32 uri ∈ seenPosts (engine c))); [contradiction|].
    rewrite Hrec. reflexivity. }
  assert (Hres : fst (processPost_resume h32 parseAtUri createdAtTime (engine c) uri o f)
                 = engine c).
  { destruct f as [r| |k]; [destruct (Hf r eq_refl) | reflexivity | destruct k; reflexivity]. }
  assert (Hcall : step h32 parseAtUri createdAtTime c (Call uri o)
                  = mkConfig (engine c) (suspended c ++ [(uri, o)])%list).
  { unfold step. rewrite Hstart. reflexivity. }
  assert (Hc1 : run h32 parseAtUri createdAtTime c [Call uri o; Settle (length (suspended c)) f]
                = mkConfig (engine c) (suspended c)).
  { unfold run. cbn [fold_left]. rewrite Hcall. unfold step. cbn [suspended engine].
    rewrite nth_error_snoc. cbn [engine]. rewrite Hres, remove_snoc. reflexivity. }
  rewrite Hc1. cbn [engine suspended].
  split; [reflexivity|]. split; [reflexivity|]. split.
  - unfold step. cbn [engine suspended]. rewrite Hstart. reflexivity.
  - intros thread getRecord repo collection rkey Hp. unfold fetchPost. rewrite Hp.
    split; [|split].
    + intros Hc. apply String.eqb_neq in Hc. rewrite Hc. reflexivity.
    + intros ->. destruct (negb (String.eqb collection POST)); reflexivity.
    + intros -> Hr [-> | ->]; rewrite String.eqb_refl; simpl;
        apply String.eqb_neq in Hr; rewrite Hr; reflexivity.
Qed.

End Unmarked.

Lemma processPost_unmarked_without_record_witness :
  let c := mkConfig (mkEngine ∅ [] 5) [] in
  let uri := "at://did:plc:bob/app.bsky.feed.post/3lk4aaaaaaaaa" in
  let c1 := run (fun _ => 7%Z) sample_parse (fun _ => Some 1%Z) c
              [Call uri (opts_with None); Settle 0 (FThrow NotFound)] in
  engine c1 = engine c /\ suspended c1 = suspended c /\
  suspended (step (fun _ => 7%Z) sample_parse (fun _ => Some 1%Z) c1 (Call uri (opts_with None)))
    = (suspended c ++ [(uri, opts_with None)])%list /\
  (forall thread getRecord repo collection rkey,
     sample_parse uri = Some (repo, collection, rkey) ->
     (collection <> POST -> fetchPost sample_parse uri thread getRecord = FEmpty) /\
     (repo = BSKY_APP_DID -> fetchPost sample_parse uri thread getRecord = FEmpty) /\
     (collection = POST -> repo <> BSKY_APP_DID ->
      thread = TRNotFoundPost \/ thread = TRError NotFound ->
      fetchPost sample_parse uri thread getRecord = FThrow NotFound)).
Proof.
  apply (processPost_unmarked_without_record (fun _ => 7%Z) sample_parse (fun _ => Some 1%Z)
           (mkConfig (mkEngine ∅ [] 5) []) "at://did:plc:bob/app.bsky.feed.post/3lk4aaaaaaaaa"
           (opts_with None) (FThrow NotFound)).
  - reflexivity.
  - intros r. discriminate.
  - simpl. lia.
  - apply not_elem_of_empty.
Defined.

End EngineFacts.

(* ===================================================================== *)
(** * Queue invariants (queue.ts) *)
(* ===================================================================== *)

Module QueueInvariants.

Import Queue.

Section Inv.

Context {A : Type} (opts : QueueOptions).

Definition counting (l : list (Task A)) : nat :=
  length (List.filter (countsTowardsSoft A) l).

(** The bookkeeping the queue keeps between events. *)
Definition limits_ok (s : State A) : Prop :=
  (runningTasks A s <= hardConcurrency opts)%nat /\
  _active A s = counting (tasks A s) /\
  (forall n, softConcurrency opts = Some n -> (_active A s <= n)%nat) /\
  (softConcurrency opts = None -> _active A s = 0%nat).

Lemma notifyWaiting_fields (s : State A) :
  _queue (_notifyWaiting A opts s) = _queue s /\
  _active A (_notifyWaiting A opts s) = _active A s /\
  tasks A (_notifyWaiting A opts s) = tasks A s.
Proof.
  unfold _notifyWaiting. destruct (max_limit opts); [|auto].
  destruct (notify_loop _ _ _ _); simpl; auto.
Qed.

Lemma canStart_fields (s s' : State A) :
  _queue s' = _queue s -> _active A s' = _active A s -> tasks A s' = tasks A s ->
  _canStart A opts s' = _canStart A opts s.
Proof.
  intros Hq Ha Ht. unfold _canStart, runningTasks. now rewrite Hq, Ha, Ht.
Qed.

Lemma limits_ok_fields (s s' : State A) :
  _active A s' = _active A s -> tasks A s' = tasks A s ->
  limits_ok s -> limits_ok s'.
Proof.
  intros Ha Ht. unfold limits_ok, runningTasks. now rewrite Ha, Ht.
Qed.

Lemma counting_app (l1 l2 : list (Task A)) :
  counting (l1 ++ l2) = (counting l1 + counting l2)%nat.
Proof. unfold counting. now rewrite List.filter_app, length_app. Qed.

Definition room (s : State A) : Prop :=
  (runningTasks A s < hardConcurrency opts)%nat /\
  (forall n, softConcurrency opts = Some n -> (_active A s < n)%nat).

Lemma canStart_room (s : State A) : _canStart A opts s = true -> room s.
Proof.
  unfold _canStart, room. destruct (_queue s); [discriminate|].
  destruct (Nat.leb_spec (hardConcurrency opts) (runningTasks A s)); [discriminate|].
  destruct (softConcurrency opts) as [soft|].
  - intros Hc. apply negb_true_iff, Nat.leb_gt in Hc. split; [lia|]. now intros n [= <-].
  - intros _. split; [lia | discriminate].
Qed.

Lemma startTask_ok (args : A) (s : State A) :
  limits_ok s -> room s -> limits_ok (_startTask A opts args s).
Proof.
  unfold limits_ok, room, _startTask, runningTasks; simpl.
  intros (Hr & Hc & Hs & Hn) (Hroom & Hsoft).
  rewrite length_app, counting_app. simpl.
  destruct (softConcurrency opts) as [soft|] eqn:E.
  - specialize (Hsoft soft eq_refl).
    unfold counting in *; simpl. repeat split; try lia.
    + intros n [= <-]. lia.
    + discriminate.
  - unfold counting in *; simpl. repeat split; try lia; try discriminate. auto.
Qed.

Lemma drain_loop_ok (fuel : nat) (s : State A) :
  limits_ok s -> (length (_queue s) <= fuel)%nat ->
  limits_ok (drain_loop A opts fuel s) /\ _canStart A opts (drain_loop A opts fuel s) = false.
Proof.
  revert s; induction fuel as [|fuel IH]; intros s Hok Hlen; simpl.
  - destruct (_queue s) eqn:E; [|simpl in Hlen; lia].
    split; [auto|]. unfold _canStart. now rewrite E.
  - destruct (_canStart A opts s) eqn:Hcan; [|now split].
    destruct (_queue s) as [|args rest] eqn:Eq.
    { unfold _canStart in Hcan. now rewrite Eq in Hcan. }
    set (s1 := mkState A rest (_active A s) (tasks A s) (promisesWaitingForSpace A s)
                 (microtasks A s) (events A s)).
    destruct (notifyWaiting_fields s1) as (Hq & Ha & Ht).
    destruct (canStart_room s Hcan) as [Hr Hs].
    apply IH.
    + apply startTask_ok.
      * apply (limits_ok_fields s); [rewrite Ha; reflexivity | rewrite Ht; reflexivity | exact Hok].
      * unfold room, runningTasks in *. rewrite Ha, Ht. split; [exact Hr | exact Hs].
    + unfold _startTask; simpl. rewrite Hq. simpl. simpl in Hlen. lia.
Qed.

Lemma drain_ok (s : State A) :
  limits_ok s -> limits_ok (_drain A opts s) /\ _canStart A opts (_drain A opts s) = false.
Proof. intros Hok. apply drain_loop_ok; auto. Qed.

Lemma nth_error_split_at {B} (l : list B) (i : nat) (t : B) :
  nth_error l i = Some t -> l = (firstn i l ++ t :: skipn (S i) l)%list.
Proof.
  revert i; induction l as [|x l IH]; intros [|i] H; simpl in *; try discriminate.
  - now injection H as ->.
  - f_equal. now apply IH.
Qed.

Definition queue_inv (s : State A) : Prop := limits_ok s /\ _canStart A opts s = false.

Lemma push_args_inv (args : A) (s : State A) :
  limits_ok s -> queue_inv (push_args A opts args s).
Proof.
  intros Hok. unfold push_args. apply drain_ok.
  apply (limits_ok_fields s); auto.
Qed.

Lemma add_inv (args : A) (s : State A) : queue_inv s -> queue_inv (add A opts args s).
Proof.
  intros [Hok Hcan]. unfold add.
  destruct (max_limit opts) as [max|]; [|now apply push_args_inv].
  destruct (max <=? size s)%nat; [|now apply push_args_inv].
  split.
  - apply (limits_ok_fields s); auto.
  - rewrite <- Hcan. apply canStart_fields; auto.
Qed.

Lemma finish_inv (i : nat) (o : Outcome) (s : State A) :
  queue_inv s -> queue_inv (finish A opts i o s).
Proof.
  intros [Hok Hcan]. unfold finish.
  destruct (nth_error (tasks A s) i) as [t|] eqn:Hnth; [|now split].
  pose proof (nth_error_split_at _ _ _ Hnth) as Hsplit.
  set (rem := (firstn i (tasks A s) ++ skipn (S i) (tasks A s))%list).
  assert (Hlen : length (tasks A s) = S (length rem)).
  { rewrite Hsplit at 1. unfold rem. rewrite !length_app. simpl. lia. }
  assert (Hcnt : counting (tasks A s) =
                 (counting rem + if countsTowardsSoft A t then 1 else 0)%nat).
  { rewrite Hsplit at 1. unfold rem, counting. rewrite !List.filter_app. cbn [List.filter].
    destruct (countsTowardsSoft A t); rewrite !length_app; simpl; lia. }
  set (s0 := mkState A (_queue s) (_active A s) rem (promisesWaitingForSpace A s)
                     (microtasks A s) (events A s)).
  set (s1 := match o with
             | Done => s0
             | AbortError =>
                 _notifyWaiting A opts (mkState A ((_queue s0 ++ [t_args A t])%list) (_active A s0)
                   (tasks A s0) (promisesWaitingForSpace A s0) (microtasks A s0) (events A s0))
             | OtherError => emit A ErrorEvent s0
             end).
  assert (H1 : _active A s1 = _active A s /\ tasks A s1 = rem).
  { unfold s1; destruct o; [split; reflexivity | | split; reflexivity].
    edestruct notifyWaiting_fields as (_ & Ha & Ht). rewrite Ha, Ht. split; reflexivity. }
  destruct H1 as [Ha1 Ht1].
  set (s2 := if countsTowardsSoft A t
             then mkState A (_queue s1) (_active A s1 - 1) (tasks A s1)
                    (promisesWaitingForSpace A s1) (microtasks A s1) (events A s1)
             else s1).
  assert (Hok2 : limits_ok s2).
  { destruct Hok as (Hr & Hc & Hs & Hn).
    unfold s2, limits_ok, runningTasks in *.
    destruct (countsTowardsSoft A t); simpl; rewrite ?Ha1, ?Ht1; repeat split.
    - lia.
    - lia.
    - intros n Hn'. specialize (Hs n Hn'). lia.
    - intros Hn'. specialize (Hn Hn'). lia.
    - lia.
    - lia.
    - intros n Hn'. specialize (Hs n Hn'). lia.
    - intros Hn'. specialize (Hn Hn'). lia. }
  fold s0 s1 s2. apply drain_ok.
  destruct (notifyWaiting_fields (emit A Completed s2)) as (_ & Ha & Ht).
  apply (limits_ok_fields s2); [rewrite Ha; reflexivity | rewrite Ht; reflexivity | exact Hok2].
Qed.

Lemma soft_timeout_inv (i : nat) (s : State A) :
  queue_inv s -> queue_inv (soft_timeout A opts i s).
Proof.
  intros [Hok Hcan]. unfold soft_timeout.
  destruct (nth_error (tasks A s) i) as [[args [|]]|] eqn:Hnth; try now split.
  apply drain_ok.
  pose proof (nth_error_split_at _ _ _ Hnth) as Hsplit.
  destruct Hok as (Hr & Hc & Hs & Hn).
  assert (Hlen : length (tasks A s) =
                 length (firstn i (tasks A s) ++ mkTask A args false :: skipn (S i) (tasks A s))).
  { rewrite Hsplit at 1. rewrite !length_app. reflexivity. }
  assert (Hcnt : counting (tasks A s) =
                 S (counting (firstn i (tasks A s) ++ mkTask A args false :: skipn (S i) (tasks A s)))).
  { rewrite Hsplit at 1. unfold counting. rewrite !List.filter_app. cbn [List.filter].
    cbn [countsTowardsSoft]. rewrite !length_app. simpl. lia. }
  unfold limits_ok, runningTasks in *; simpl. rewrite <- Hlen. repeat split.
  - exact Hr.
  - lia.
  - intros n Hn'. specialize (Hs n Hn'). lia.
  - intros Hn'. specialize (Hn Hn'). lia.
Qed.

Lemma run_microtask_inv (s : State A) : queue_inv s -> queue_inv (run_microtask A opts s).
Proof.
  intros [Hok Hcan]. unfold run_microtask.
  destruct (microtasks A s); [now split|].
  apply push_args_inv. apply (limits_ok_fields s); auto.
Qed.

Lemma step_inv (s : State A) (st : Step A) : queue_inv s -> queue_inv (step A opts s st).
Proof.
  destruct st; simpl.
  - apply add_inv.
  - apply finish_inv.
  - apply soft_timeout_inv.
  - apply run_microtask_inv.
Qed.

Lemma run_inv (steps : list (Step A)) (s : State A) :
  queue_inv s -> queue_inv (run opts s steps).
Proof.
  revert s; induction steps as [|st steps IH]; intros s H; simpl; [exact H|].
  apply IH, step_inv, H.
Qed.

Lemma init_inv : queue_inv init.
Proof.
  unfold queue_inv, limits_ok, runningTasks, _canStart; simpl. repeat split; lia.
Qed.

End Inv.

(** X1: The concurrency limits hold in every state the queue reaches:
    at most [hardConcurrency] tasks run, [activeTasks] is the number of
    running tasks still counting towards the soft limit, it never exceeds
    [softConcurrency], and it stays 0 when there is no soft limit. *)
Theorem queue_respects_concurrency_limits {A} (opts : QueueOptions) (steps : list (Step A)) :
  let s := run opts init steps in
  (runningTasks A s <= hardConcurrency opts)%nat /\
  _active A s = length (List.filter (countsTowardsSoft A) (tasks A s)) /\
  (forall n, softConcurrency opts = Some n -> (_active A s <= n)%nat) /\
  (softConcurrency opts = None -> _active A s = 0%nat).
Proof. apply (run_inv opts steps init (init_inv opts)). Qed.

End QueueInvariants.

(* ===================================================================== *)
(** * RPC retries and the service cache (xrpc.ts) *)
(* ===================================================================== *)

Module XrpcExtra.

Import Xrpc.

Lemma getServiceForDid_found_cached (resolve : string -> Resolution)
    (cache cache' : gmap string (option string)) (did s : string) (n : nat) :
  getServiceForDid resolve cache did = (ServiceOk (Some s), cache', n) ->
  s <> "" -> cache' !! did = Some (Some s).
Proof.
  intros H Hs. unfold getServiceForDid in H.
  repeat case_match; simplify_eq; try discriminate.
  all: rewrite ?lookup_insert_eq; first [reflexivity | assumption |
    match goal with E : String.eqb _ "" = true |- _ => apply String.eqb_eq in E; congruence end].
Qed.

(** X4: Once [getServiceForDid] has found a non-empty endpoint, the next call
    for the same DID answers it from the cache without resolving again,
    whatever the resolver would now return. *)
Theorem getServiceForDid_caches_endpoint (resolve resolve' : string -> Resolution)
    (cache cache' : gmap string (option string)) (did s : string) (n : nat) :
  getServiceForDid resolve cache did = (ServiceOk (Some s), cache', n) ->
  s <> "" ->
  getServiceForDid resolve' cache' did = (ServiceOk (Some s), cache', 0%nat).
Proof.
  intros H Hs. pose proof (getServiceForDid_found_cached _ _ _ _ _ _ H Hs) as Hc.
  apply String.eqb_neq in Hs.
  unfold getServiceForDid. rewrite Hc, Hs. reflexivity.
Qed.

Definition pds_doc : Resolution :=
  Resolved (Some (mkDidDocument (Some [mkService "#atproto_pds" (EStr "https://pds.example")]))).

Lemma getServiceForDid_caches_endpoint_witness :
  let '(r, c, n) := getServiceForDid (fun _ => pds_doc) ∅ "did:plc:a" in
  r = ServiceOk (Some "https://pds.example") /\ "https://pds.example" <> "" /\
  getServiceForDid (fun _ => ResolveError "Error") c "did:plc:a" =
    (ServiceOk (Some "https://pds.example"), c, 0%nat).
Proof.
  destruct (getServiceForDid (fun _ => pds_doc) ∅ "did:plc:a") as [[r c] n] eqn:E.
  assert (Hr : r = ServiceOk (Some "https://pds.example")) by (vm_compute in E; congruence).
  subst r. split; [reflexivity|]. split; [discriminate|].
  exact (getServiceForDid_caches_endpoint _ _ _ _ _ _ _ E ltac:(discriminate)).
Defined.

(** X5: A failed lookup (the resolver throws something other than
    [ImproperContentTypeError], or the endpoint is not a string) leaves the
    cache as it was, after one resolution: failures are never cached. *)
Theorem getServiceForDid_failure_not_cached (resolve : string -> Resolution)
    (cache cache' : gmap string (option string)) (did : string) (n : nat) :
  getServiceForDid resolve cache did = (ServiceError, cache', n) ->
  cache' = cache /\ n = 1%nat.
Proof.
  intros H. unfold getServiceForDid in H.
  repeat case_match; simplify_eq; auto.
Qed.

Lemma getServiceForDid_failure_not_cached_witness :
  getServiceForDid (fun _ => ResolveError "XRPCError") ∅ "did:plc:a" = (ServiceError, ∅, 1%nat) /\
  (∅ : gmap string (option string)) = ∅ /\ 1%nat = 1%nat.
Proof.
  assert (E : getServiceForDid (fun _ => ResolveError "XRPCError") ∅ "did:plc:a" = (ServiceError, ∅, 1%nat))
    by reflexivity.
  split; [exact E|]. exact (getServiceForDid_failure_not_cached _ _ _ _ _ E).
Defined.

End XrpcExtra.

(* ===================================================================== *)
(** * What the walk of a repo enqueues (part_002) *)
(* ===================================================================== *)

Module RepoExtra.

Import Backfill RepoFacts.

(** An entry the walk must decode: its collection is selected and has a
    processor. *)
Definition selected (collections : list string) (e : MstEntry) : bool :=
  mem (entry_collection e) collections && mem (entry_collection e) processors_keys.

Lemma collect_undecoded did isOwnRepo rev collections entries e :
  In e entries -> selected collections e = true -> decodes e = false ->
  collect did isOwnRepo rev collections entries = None.
Proof.
  intros Hin Hsel Hd. induction entries as [|e' es IH]; [destruct Hin|].
  rewrite collect_cons. destruct Hin as [->| Hin].
  - unfold selected in Hsel. apply andb_true_iff in Hsel as [H1 H2].
    rewrite H1, H2. cbn [negb orb]. unfold decodes in Hd.
    destruct (block e) as [r|]; [|reflexivity].
    apply negb_false_iff in Hd. rewrite Hd. reflexivity.
  - rewrite (IH Hin).
    destruct (negb _ || negb _); [reflexivity|].
    destruct (block e') as [r|]; [|reflexivity].
    destruct (undecodable r); [reflexivity|].
    destruct (skip_old _ _ _ _); reflexivity.
Qed.

(** X6: A selected record whose block is missing from the archive makes the
    whole repo fail: nothing is enqueued and the repo's [rev] is not
    written, even when that record would have been skipped as old. *)
Theorem processRepo_missing_block_aborts (uriOk : string -> bool) (userDid did commit_rev : string)
    (rev : option string) (collections : list string) (entries : list MstEntry)
    (e : MstEntry) :
  In e entries -> selected collections e = true -> block e = None ->
  processRepo uriOk userDid did rev collections entries commit_rev = ([], None).
Proof.
  intros Hin Hsel Hb. unfold processRepo.
  rewrite (collect_undecoded _ _ _ _ _ e Hin Hsel); [reflexivity|].
  unfold decodes. rewrite Hb. reflexivity.
Qed.

Definition broken_entries : list MstEntry :=
  [mkEntry "app.bsky.feed.post/3lk4aaaaaaaaa" (Some (VPost sample_record));
   mkEntry "app.bsky.feed.repost/3lk4bbbbbbbbb" None].

Lemma processRepo_missing_block_aborts_witness :
  In (mkEntry "app.bsky.feed.repost/3lk4bbbbbbbbb" None) broken_entries /\
  selected [POST; REPOST] (mkEntry "app.bsky.feed.repost/3lk4bbbbbbbbb" None) = true /\
  processRepo all_uris_ok "did:plc:me" "did:plc:bob" None [POST; REPOST] broken_entries
    "3lk5aaaaaaaaa" = ([], None).
Proof.
  assert (Hin : In (mkEntry "app.bsky.feed.repost/3lk4bbbbbbbbb" None) broken_entries)
    by (simpl; auto).
  assert (Hsel : selected [POST; REPOST] (mkEntry "app.bsky.feed.repost/3lk4bbbbbbbbb" None) = true)
    by reflexivity.
  split; [exact Hin|]. split; [exact Hsel|].
  exact (processRepo_missing_block_aborts _ _ _ _ _ _ _ _ Hin Hsel eq_refl).
Defined.

(** X19: A selected record whose block [decodeCbor] rejects makes the whole
    repo fail the same way: nothing is enqueued and the [rev] is not
    written.  The block is decoded before the [rev] test, so this happens
    even for a record that would have been skipped as old. *)
Theorem processRepo_undecodable_block_aborts (uriOk : string -> bool)
    (userDid did commit_rev : string) (rev : option string) (collections : list string)
    (entries : list MstEntry) (e : MstEntry) :
  In e entries -> selected collections e = true -> block e = Some VUndecodable ->
  processRepo uriOk userDid did rev collections entries commit_rev = ([], None).
Proof.
  intros Hin Hsel Hb. unfold processRepo.
  rewrite (collect_undecoded _ _ _ _ _ e Hin Hsel); [reflexivity|].
  unfold decodes. rewrite Hb. reflexivity.
Qed.

Definition garbled_entries : list MstEntry :=
  [mkEntry "app.bsky.feed.post/3lk4zzzaaaaaa" (Some (VPost sample_record));
   mkEntry "app.bsky.feed.post/3lk4aaaaaaaaa" (Some VUndecodable)].

Lemma processRepo_undecodable_block_aborts_witness :
  In (mkEntry "app.bsky.feed.post/3lk4aaaaaaaaa" (Some VUndecodable)) garbled_entries /\
  skip_old false (Some "3lk4xyzaaaaaa") POST (Some "3lk4aaaaaaaaa") = true /\
  processRepo all_uris_ok "did:plc:me" "did:plc:bob" (Some "3lk4xyzaaaaaa") [POST; REPOST]
    garbled_entries "3lk5aaaaaaaaa" = ([], None).
Proof.
  assert (Hin : In (mkEntry "app.bsky.feed.post/3lk4aaaaaaaaa" (Some VUndecodable)) garbled_entries)
    by (simpl; auto).
  split; [exact Hin|]. split; [reflexivity|].
  exact (processRepo_undecodable_block_aborts all_uris_ok "did:plc:me" "did:plc:bob" "3lk5aaaaaaaaa"
           (Some "3lk4xyzaaaaaa") [POST; REPOST] garbled_entries _ Hin eq_refl eq_refl).
Defined.

Lemma collect_records did isOwnRepo rev collections entries rs :
  collect did isOwnRepo rev collections entries = Some rs ->
  Forall (fun c => mem (c_collection c) collections = true /\
                   c_inclusion c = if String.eqb (c_collection c) POST
                                   then Some (mkInclusion (if isOwnRepo then self else by_follow) None)
                                   else None) rs.
Proof.
  revert rs; induction entries as [|e es IH]; intros rs H.
  - simpl in H. injection H as <-. constructor.
  - rewrite collect_cons in H.
    destruct (mem (entry_collection e) collections) eqn:Hm; cbn [negb orb] in H; [|exact (IH _ H)].
    destruct (negb (mem (entry_collection e) processors_keys)); [exact (IH _ H)|].
    destruct (block e) as [r|]; [|discriminate].
    destruct (undecodable r); [discriminate|].
    destruct (skip_old _ _ _ _); [exact (IH _ H)|].
    destruct (collect did isOwnRepo rev collections es) as [rs'|] eqn:E; [|discriminate].
    simpl in H. injection H as <-. constructor; [split; [exact Hm | reflexivity]|].
    exact (IH _ eq_refl).
Qed.

Lemma process_all_in uriOk did (rs : list Collected) a :
  In a (fst (process_all uriOk did rs)) ->
  exists c acts, In c rs /\ process_record uriOk did c = Some acts /\ In a acts.
Proof.
  induction rs as [|c cs IH]; simpl; [contradiction|].
  destruct (process_record uriOk did c) as [acts|] eqn:Hc; [|contradiction].
  destruct (process_all uriOk did cs) as [rest ok]. simpl.
  intros Hin. apply in_app_or in Hin as [Hin|Hin].
  - exists c, acts. auto.
  - destruct (IH Hin) as (c' & acts' & Hc' & Hp & Ha). exists c', acts'. auto.
Qed.

(** X7: What the walk of a repo hands to the queues: a repo to walk only for a
    selected follow; otherwise a post to fetch, either the repo's own post
    (reason [self] in the user's repo, [by_follow] in any other) with its
    record, or the subject of a repost (reason [reposted_by], context the
    reposting repo) or of a like (reason [liked_by_self]) without a
    record, each from a selected collection. *)
Theorem processRepo_actions (uriOk : string -> bool) (userDid did commit_rev : string)
    (rev : option string) (collections : list string) (entries : list MstEntry) (a : Action) :
  In a (fst (processRepo uriOk userDid did rev collections entries commit_rev)) ->
  match a with
  | RepoQueueAdd _ => mem FOLLOW collections = true
  | PostQueueAdd _ o =>
      (reason (inclusion o) = self /\ did = userDid /\ record o <> None /\
       context (inclusion o) = None /\ mem POST collections = true) \/
      (reason (inclusion o) = by_follow /\ did <> userDid /\ record o <> None /\
       context (inclusion o) = None /\ mem POST collections = true) \/
      (reason (inclusion o) = reposted_by /\ context (inclusion o) = Some did /\
       record o = None /\ mem REPOST collections = true) \/
      (reason (inclusion o) = liked_by_self /\ context (inclusion o) = None /\
       record o = None /\ mem LIKE collections = true)
  end.
Proof.
  unfold processRepo.
  destruct (collect did (String.eqb did userDid) rev collections entries) as [rs|] eqn:E;
    [|simpl; tauto].
  pose proof (collect_records _ _ _ _ _ _ E) as Hrs.
  destruct (process_all uriOk did rs) as [acts0 ok] eqn:Ep. simpl.
  intros Hin. assert (Hin' : In a (fst (process_all uriOk did rs))) by (rewrite Ep; exact Hin).
  apply process_all_in in Hin' as (c & acts & Hc & Hp & Ha).
  rewrite List.Forall_forall in Hrs. destruct (Hrs c Hc) as [Hmem Hinc].
  unfold process_record in Hp.
  destruct (String.eqb (c_collection c) POST) eqn:Ep'.
  - apply String.eqb_eq in Ep'. rewrite Ep' in Hmem.
    rewrite Hinc in Hp. destruct (c_record c); injection Hp as <-; try (exfalso; exact Ha).
    destruct Ha as [<-|[]]. simpl.
    destruct (String.eqb did userDid) eqn:Ed.
    + left. apply String.eqb_eq in Ed. repeat split; auto; discriminate.
    + right; left. apply String.eqb_neq in Ed. repeat split; auto; discriminate.
  - destruct (String.eqb (c_collection c) REPOST) eqn:Er.
    + apply String.eqb_eq in Er. rewrite Er in Hmem.
      destruct (c_record c); try (injection Hp as <-; exfalso; exact Ha).
      destruct (uriOk (c_uri c)); [|discriminate].
      injection Hp as <-. destruct Ha as [<-|[]]. simpl. tauto.
    + destruct (String.eqb (c_collection c) LIKE) eqn:El.
      * apply String.eqb_eq in El. rewrite El in Hmem.
        destruct (c_record c); injection Hp as <-; try (exfalso; exact Ha).
        destruct Ha as [<-|[]]. simpl. tauto.
      * destruct (String.eqb (c_collection c) FOLLOW) eqn:Ef;
          [|injection Hp as <-; destruct Ha].
        apply String.eqb_eq in Ef. rewrite Ef in Hmem.
        destruct (c_record c); injection Hp as <-; try (exfalso; exact Ha).
        destruct Ha as [<-|[]]. exact Hmem.
Qed.

Lemma processRepo_actions_witness :
  In (RepoQueueAdd "did:plc:bob")
     (fst (processRepo all_uris_ok "did:plc:me" "did:plc:me" None [FOLLOW] own_entries "r")) /\
  mem FOLLOW [FOLLOW] = true.
Proof.
  assert (H : In (RepoQueueAdd "did:plc:bob")
     (fst (processRepo all_uris_ok "did:plc:me" "did:plc:me" None [FOLLOW] own_entries "r")))
    by (vm_compute; left; reflexivity).
  split; [exact H|].
  exact (processRepo_actions all_uris_ok "did:plc:me" "did:plc:me" "r" None [FOLLOW] own_entries _ H).
Defined.

Lemma collect_in did isOwnRepo rev collections entries rs e v :
  collect did isOwnRepo rev collections entries = Some rs ->
  In e entries -> selected collections e = true -> block e = Some v -> undecodable v = false ->
  skip_old isOwnRepo rev (entry_collection e) (entry_rkey e) = false ->
  In (entry_collected did isOwnRepo e) rs.
Proof.
  revert rs. induction entries as [|e' es IH]; intros rs H Hin Hsel Hb Hv Hs; [destruct Hin|].
  rewrite collect_cons in H. destruct Hin as [->|Hin].
  - unfold selected in Hsel. apply andb_true_iff in Hsel as [H1 H2].
    rewrite H1, H2, Hb, Hv, Hs in H. cbn [negb orb] in H.
    destruct (collect did isOwnRepo rev collections es); [|discriminate].
    injection H as <-. left. rewrite (entry_collected_some _ _ _ _ Hb). reflexivity.
  - destruct (negb _ || negb _); [exact (IH _ H Hin Hsel Hb Hv Hs)|].
    destruct (block e') as [r|]; [|discriminate].
    destruct (undecodable r); [discriminate|].
    destruct (skip_old isOwnRepo rev (entry_collection e') (entry_rkey e'));
      [exact (IH _ H Hin Hsel Hb Hv Hs)|].
    destruct (collect did isOwnRepo rev collections es) as [rs'|]; [|discriminate].
    injection H as <-. right. exact (IH _ eq_refl Hin Hsel Hb Hv Hs).
Qed.

Lemma process_all_stops uriOk did (rs : list Collected) c :
  In c rs -> process_record uriOk did c = None -> snd (process_all uriOk did rs) = false.
Proof.
  intros Hin Hc. induction rs as [|c' cs IH]; [destruct Hin|]. simpl.
  destruct Hin as [<-|Hin]; [rewrite Hc; reflexivity|].
  destruct (process_record uriOk did c'); [|reflexivity].
  specialize (IH Hin). destruct (process_all uriOk did cs). exact IH.
Qed.

(** X20: A repost the walk processes whose URI [parseAtUri] rejects (an
    [rkey] that is not a valid record key, say) makes its processor throw:
    the walk stops there and the repo's new [rev] is not written. *)
Theorem processRepo_invalid_repost_uri_keeps_rev (uriOk : string -> bool)
    (userDid did commit_rev : string) (rev : option string) (collections : list string)
    (entries : list MstEntry) (e : MstEntry) (subject : string) :
  In e entries -> entry_collection e = REPOST -> mem REPOST collections = true ->
  block e = Some (VRepost subject) ->
  skip_old (String.eqb did userDid) rev REPOST (entry_rkey e) = false ->
  uriOk (entry_uri did e) = false ->
  snd (processRepo uriOk userDid did rev collections entries commit_rev) = None.
Proof.
  intros Hin Hc Hm Hb Hs Hu. unfold processRepo.
  destruct (collect did (String.eqb did userDid) rev collections entries) as [rs|] eqn:E;
    [|reflexivity].
  assert (Hsel : selected collections e = true) by (unfold selected; rewrite Hc, Hm; reflexivity).
  rewrite <- Hc in Hs.
  pose proof (collect_in _ _ _ _ _ _ _ _ E Hin Hsel Hb eq_refl Hs) as Hrs.
  assert (Hn : process_record uriOk did (entry_collected did (String.eqb did userDid) e) = None).
  { unfold process_record. rewrite (entry_collected_some _ _ _ _ Hb).
    cbn [c_collection c_record c_uri]. rewrite Hc, Hu. reflexivity. }
  pose proof (process_all_stops _ _ _ _ Hrs Hn) as Hst.
  destruct (process_all uriOk did rs) as [acts ok]. simpl in Hst |- *. rewrite Hst. reflexivity.
Qed.

(** [parseAtUri] rejecting the record key ["bad key"]. *)
Definition rkey_checked (u : string) : bool := negb (JsString.includes u " ").

Definition bad_repost : MstEntry :=
  mkEntry "app.bsky.feed.repost/bad key" (Some (VRepost "at://did:plc:carol/app.bsky.feed.post/3lk4aaaaaaaaa")).

Lemma processRepo_invalid_repost_uri_keeps_rev_witness :
  processRepo rkey_checked "did:plc:me" "did:plc:bob" None [POST; REPOST]
    [bad_repost; mkEntry "app.bsky.feed.post/3lk4aaaaaaaaa" (Some (VPost sample_record))]
    "3lk5aaaaaaaaa" = ([], None).
Proof.
  assert (H : snd (processRepo rkey_checked "did:plc:me" "did:plc:bob" None [POST; REPOST]
    [bad_repost; mkEntry "app.bsky.feed.post/3lk4aaaaaaaaa" (Some (VPost sample_record))]
    "3lk5aaaaaaaaa") = None).
  { apply (processRepo_invalid_repost_uri_keeps_rev _ _ _ _ _ _ _ bad_repost
             "at://did:plc:carol/app.bsky.feed.post/3lk4aaaaaaaaa");
      [left; reflexivity | reflexivity | reflexivity | reflexivity | reflexivity | vm_compute; reflexivity]. }
  vm_compute in H |- *. reflexivity.
Defined.

End RepoExtra.

(* ===================================================================== *)
(** * Follow-ups of a post *)
(* ===================================================================== *)

Module FollowupFacts.

Import Backfill Followups.

Definition tagged (uri : string) (o : ProcessPostOptions) (e : Enqueued) : Prop :=
  depth (q_options e) = (depth o + 1)%Z /\
  context (inclusion (q_options e)) = Some uri /\
  (reason (inclusion (q_options e)) = quoted_by \/
   reason (inclusion (q_options e)) = ancestor_of \/
   reason (inclusion (q_options e)) = descendant_of).

Lemma visit_tagged uri o mtd : forall n td e,
  In e (visit uri (depth o) mtd n td) -> tagged uri o e /\ reason (inclusion (q_options e)) = descendant_of.
Proof.
  intros n. induction n as [u r sub IH|] using ThreadFacts.ThreadNode_deep_ind; intros td e Hin.
  - rewrite ThreadFacts.visit_tv in Hin. destruct Hin as [<-|Hin].
    + unfold tagged; simpl; repeat split; auto.
    + destruct (mtd <? td + 1)%Z; [contradiction|].
      apply in_flat_map in Hin as [c [Hc Hin]].
      rewrite List.Forall_forall in IH. exact (IH c Hc _ _ Hin).
  - contradiction.
Qed.

Lemma ancestors_tagged uri o : forall p e,
  In e (ancestors uri o p) -> tagged uri o e /\ reason (inclusion (q_options e)) = ancestor_of.
Proof.
  induction p as [u r p IH|u| |]; intros e Hin; simpl in Hin.
  - destruct Hin as [<-|Hin]; [unfold tagged; simpl; repeat split; auto | exact (IH e Hin)].
  - destruct Hin as [<-|[]]. unfold tagged; simpl; repeat split; auto.
  - contradiction.
  - contradiction.
Qed.

Lemma thread_followups_tagged uri o r tv0 fetched e :
  In e (thread_followups uri o r tv0 fetched) -> tagged uri o e /\ reason (inclusion (q_options e)) <> quoted_by.
Proof.
  unfold thread_followups.
  destruct (match tv0 with Some t => Some t | None => fetched end) as [t|].
  - intros Hin. apply in_app_or in Hin as [Hin|Hin].
    + destruct (ancestors_tagged _ _ _ _ Hin) as [Ht Hr]. rewrite Hr. split; [exact Ht | discriminate].
    + unfold processPostReplies in Hin.
      destruct (maxThreadDepth (tv_replyCount t) <? 1)%Z; [contradiction|].
      apply in_flat_map in Hin as [n [_ Hin]].
      destruct (visit_tagged _ _ _ _ _ _ Hin) as [Ht Hr]. rewrite Hr. split; [exact Ht | discriminate].
  - destruct (pr_reply r) as [[parent root]|]; [|contradiction].
    intros [<-|[<-|[]]]; (split; [unfold tagged; simpl; repeat split; auto | discriminate]).
Qed.

Lemma quote_followup_tagged uri o quoted tv0 e :
  In e (quote_followup uri o quoted tv0) ->
  tagged uri o e /\ reason (inclusion (q_options e)) = quoted_by /\ Some (q_uri e) = quoted.
Proof.
  unfold quote_followup. destruct quoted as [q|]; [|contradiction].
  destruct (option_bind _ _ tv_quoteValue tv0); intros [<-|[]]; unfold tagged; simpl; repeat split; auto.
Qed.

(** X8: Every post [processPost] enqueues after buffering a post is one level
    deeper ([depth + 1]) and names that post as its inclusion context; its
    reason is [quoted_by] (only for the quoted URI), [ancestor_of] or
    [descendant_of]. *)
Theorem followups_one_level_deeper (uri : string) (o : ProcessPostOptions) (maxDepth : Z)
    (r : PostRecord) (quoted : option string) (tv0 fetched : option ThreadView) (e : Enqueued) :
  In e (followups uri o maxDepth r quoted tv0 fetched) ->
  depth (q_options e) = (depth o + 1)%Z /\
  context (inclusion (q_options e)) = Some uri /\
  (reason (inclusion (q_options e)) = quoted_by /\ Some (q_uri e) = quoted \/
   reason (inclusion (q_options e)) = ancestor_of \/
   reason (inclusion (q_options e)) = descendant_of).
Proof.
  unfold followups. intros Hin. apply in_app_or in Hin as [Hin|Hin].
  - destruct (quote_followup_tagged _ _ _ _ _ Hin) as [(Hd & Hc & _) [Hr Hq]]. auto.
  - assert (Hth : In e (thread_followups uri o r tv0 fetched) ->
                  depth (q_options e) = (depth o + 1)%Z /\
                  context (inclusion (q_options e)) = Some uri /\
                  (reason (inclusion (q_options e)) = quoted_by /\ Some (q_uri e) = quoted \/
                   reason (inclusion (q_options e)) = ancestor_of \/
                   reason (inclusion (q_options e)) = descendant_of)).
    { intros Ht. destruct (thread_followups_tagged _ _ _ _ _ _ Ht) as [(Hd & Hc & Hr) Hnq].
      split; [exact Hd|]. split; [exact Hc|]. destruct Hr as [Hr|Hr]; [contradiction|]. auto. }
    destruct (decide (reason (inclusion o) = descendant_of)); [contradiction|].
    destruct (pr_reply r) as [[parent root]|]; [|exact (Hth Hin)].
    destruct (decide (reason (inclusion o) = ancestor_of)); [contradiction|].
    destruct (depth o + 1 <? maxDepth)%Z; [|exact (Hth Hin)].
    destruct Hin as [<-|[]]. simpl. auto.
Qed.

(** X10: Follow-ups stop at the depth limit: whatever a post at depth
    [maxDepth] enqueues is dropped by [processPost] on arrival, with the
    engine unchanged. *)
Theorem followups_of_deepest_post_dropped h32 parseAtUri createdAtTime
    (st : Engine.Engine) (uri : string) (o : ProcessPostOptions)
    (r : PostRecord) (quoted : option string) (tv0 fetched : option ThreadView) (e : Enqueued) :
  depth o = Engine.maxDepth st ->
  In e (followups uri o (Engine.maxDepth st) r quoted tv0 fetched) ->
  Engine.processPost_start h32 parseAtUri createdAtTime st (q_uri e) (q_options e) = Engine.Ended st.
Proof.
  intros Hd Hin. destruct (followups_one_level_deeper _ _ _ _ _ _ _ _ Hin) as [He _].
  unfold Engine.processPost_start. rewrite He, Hd.
  replace (Engine.maxDepth st <? Engine.maxDepth st + 1)%Z with true by (symmetry; apply Z.ltb_lt; lia).
  reflexivity.
Qed.

Definition reply_rec : PostRecord :=
  mkPostRecord "2024-01-01T00:00:00.000Z" "re" (Some ("at://did:plc:bob/app.bsky.feed.post/p", "at://did:plc:bob/app.bsky.feed.post/root")).

Definition deep_opts : ProcessPostOptions := mkOptions (mkInclusion self None) None 5.

Lemma followups_one_level_deeper_witness :
  let e := ancestor_add "at://did:plc:me/app.bsky.feed.post/x" deep_opts
             "at://did:plc:bob/app.bsky.feed.post/root" in
  In e (followups "at://did:plc:me/app.bsky.feed.post/x" deep_opts 10 reply_rec None None None) /\
  depth (q_options e) = 6%Z.
Proof.
  intros e.
  assert (H : In e (followups "at://did:plc:me/app.bsky.feed.post/x" deep_opts 10 reply_rec None None None))
    by (vm_compute; left; reflexivity).
  split; [exact H|].
  exact (proj1 (followups_one_level_deeper _ _ _ _ _ _ _ _ H)).
Defined.

Lemma followups_of_deepest_post_dropped_witness :
  let st := Engine.mkEngine ∅ [] 5 in
  let e := ancestor_add "at://did:plc:me/app.bsky.feed.post/x" deep_opts
             "at://did:plc:bob/app.bsky.feed.post/root" in
  In e (followups "at://did:plc:me/app.bsky.feed.post/x" deep_opts (Engine.maxDepth st) reply_rec None None None) /\
  Engine.processPost_start (fun _ => 7%Z) EngineFacts.sample_parse (fun _ => Some 1%Z) st (q_uri e) (q_options e)
    = Engine.Ended st.
Proof.
  intros st e.
  assert (H : In e (followups "at://did:plc:me/app.bsky.feed.post/x" deep_opts (Engine.maxDepth st) reply_rec None None None))
    by (vm_compute; right; left; reflexivity).
  split; [exact H|].
  exact (followups_of_deepest_post_dropped (fun _ => 7%Z) EngineFacts.sample_parse (fun _ => Some 1%Z)
           st _ deep_opts reply_rec None None None e eq_refl H).
Defined.

End FollowupFacts.

(* ===================================================================== *)
(** * Write buffer batches *)
(* ===================================================================== *)

Module WriteBufferFacts.

Import WriteBuffer.

Section Facts.

Context {P : Type}.

Lemma loop_body_concat (s s' : State P) :
  loop_body P s = Some s' ->
  (concat (insertCalls s') ++ toWrite s' = concat (insertCalls s) ++ toWrite s)%list /\
  loops s' = loops s /\
  (length (toWrite s') <= length (toWrite s))%nat /\
  (forall b, In b (insertCalls s') -> In b (insertCalls s) \/
     (b <> [] /\ (length b <= WRITE_POSTS_BATCH_SIZE)%nat)).
Proof.
  unfold loop_body. destruct (toWrite s) as [|x xs] eqn:E; [discriminate|].
  rewrite <- E. intros [= <-]. cbn [insertCalls toWrite loops]. split; [|split; [reflexivity|split]].
  - rewrite concat_app. cbn [concat]. rewrite app_nil_r, <- app_assoc, firstn_skipn. reflexivity.
  - rewrite length_skipn. lia.
  - intros b Hb. apply in_app_or in Hb as [Hb|[<-|[]]]; [now left|right].
    split.
    + rewrite E. simpl. discriminate.
    + apply firstn_le_length.
Qed.

Definition batches_ok (bs : list (list P)) : Prop :=
  Forall (fun b => b <> [] /\ (length b <= WRITE_POSTS_BATCH_SIZE)%nat) bs.

Lemma batches_ok_extend (bs bs' : list (list P)) :
  batches_ok bs ->
  (forall b, In b bs' -> In b bs \/ (b <> [] /\ (length b <= WRITE_POSTS_BATCH_SIZE)%nat)) ->
  batches_ok bs'.
Proof.
  intros Hbs Hext. unfold batches_ok in *. rewrite List.Forall_forall in *.
  intros b Hb. destruct (Hext b Hb) as [H|H]; [exact (Hbs b H) | exact H].
Qed.

(** What every step keeps: the posts already handed to [insertPosts]
    followed by the buffer are the posts queued so far, in order; the
    buffer holds at most 20 posts; every batch has 1 to 20 posts. *)
Definition buffer_inv (s : State P) (pushed : list P) : Prop :=
  (concat (insertCalls s) ++ toWrite s = pushed)%list /\
  (length (toWrite s) <= WRITE_POSTS_BATCH_SIZE)%nat /\
  batches_ok (insertCalls s).

Lemma loop_body_inv (s s' : State P) pushed :
  buffer_inv s pushed -> loop_body P s = Some s' -> buffer_inv s' pushed /\ loops s' = loops s.
Proof.
  intros (Hc & Hl & Hb) E. destruct (loop_body_concat s s' E) as (Hc' & Hlo & Hl' & Hb').
  split; [|exact Hlo]. split; [rewrite Hc'; exact Hc|]. split; [lia|].
  exact (batches_ok_extend _ _ Hb Hb').
Qed.

Lemma writePosts_inv (s : State P) pushed :
  buffer_inv s pushed -> buffer_inv (writePosts P s) pushed.
Proof.
  intros H. unfold writePosts. destruct (loop_body P s) as [s'|] eqn:E; [|exact H].
  destruct (loop_body_inv s s' pushed H E) as [(Hc & Hl & Hb) _]. split; [|split]; assumption.
Qed.

Lemma queueWritePost_inv (s : State P) pushed p :
  buffer_inv s pushed -> buffer_inv (queueWritePost P s p) (pushed ++ [p]).
Proof.
  intros (Hc & Hl & Hb). unfold queueWritePost. cbn [toWrite].
  set (s1 := mkState ((toWrite s ++ [p])%list) (loops s) (insertCalls s)).
  assert (Hc1 : (concat (insertCalls s1) ++ toWrite s1 = pushed ++ [p])%list).
  { simpl. rewrite app_assoc, Hc. reflexivity. }
  destruct (Nat.ltb_spec WRITE_POSTS_BATCH_SIZE (length (toWrite s ++ [p]))) as [Hlt|Hge].
  - unfold writePosts. destruct (loop_body P s1) as [s'|] eqn:E.
    + destruct (loop_body_concat s1 s' E) as (Hc' & _ & _ & Hb').
      assert (Ht : toWrite s' = skipn WRITE_POSTS_BATCH_SIZE (toWrite s1)).
      { unfold loop_body in E. destruct (toWrite s1); [discriminate|]. now injection E as <-. }
      split; [simpl; rewrite Hc'; exact Hc1|]. split.
      * simpl. rewrite Ht, length_skipn. unfold s1; cbn [toWrite]. rewrite length_app in *. unfold WRITE_POSTS_BATCH_SIZE in *. simpl in *. lia.
      * exact (batches_ok_extend _ _ Hb Hb').
    + unfold loop_body in E. simpl in E. destruct (toWrite s ++ [p])%list eqn:Ex; [|discriminate].
      destruct (toWrite s); discriminate.
  - split; [exact Hc1|]. split; [exact Hge | exact Hb].
Qed.

Lemma resume_inv (s : State P) pushed :
  buffer_inv s pushed -> buffer_inv (resume P s) pushed.
Proof.
  intros H. unfold resume. destruct (loops s); [exact H|].
  destruct (loop_body P s) as [s'|] eqn:E.
  - exact (proj1 (loop_body_inv s s' pushed H E)).
  - destruct H as (Hc & Hl & Hb). split; [|split]; assumption.
Qed.

Lemma buffer_run_inv (steps : list (Step P)) (s : State P) pushed :
  buffer_inv s pushed -> buffer_inv (run s steps) (pushed ++ queued steps).
Proof.
  revert s pushed. induction steps as [|st steps IH]; intros s pushed H.
  - simpl. rewrite app_nil_r. exact H.
  - unfold run. cbn [fold_left]. destruct st as [p| |]; cbn [step queued flat_map].
    + rewrite app_assoc. apply IH, queueWritePost_inv, H.
    + apply IH, resume_inv, H.
    + apply IH, writePosts_inv, H.
Qed.

End Facts.

(** X11: However [queueWritePost] calls, the resumptions of pending
    [writePosts] loops and the final flush interleave, the batches passed
    to [insertPosts] followed by the posts still buffered are exactly the
    posts queued, in order: no post is dropped, duplicated or reordered.
    Every batch holds 1 to 20 posts, and after every step at most 20 posts
    wait in the buffer. *)
Theorem writePosts_batches_preserve_order {P} (steps : list (Step P)) :
  let s := run (mkState [] 0 []) steps in
  (concat (insertCalls s) ++ toWrite s = queued steps)%list /\
  (length (toWrite s) <= 20)%nat /\
  Forall (fun b => b <> [] /\ (length b <= 20)%nat) (insertCalls s).
Proof.
  apply (buffer_run_inv steps (mkState [] 0 []) []).
  split; [reflexivity|]. split; [simpl; lia | constructor].
Qed.

End WriteBufferFacts.

(* ===================================================================== *)
(** * Embedding alignment *)
(* ===================================================================== *)

Module EmbeddingFacts.

Import Embeddings.

Lemma alter_middle {A} (f : A -> A) (pre rest : list A) (x : A) :
  alter f (length pre) (pre ++ x :: rest)%list = (pre ++ f x :: rest)%list.
Proof. induction pre as [|y pre IH]; simpl; [reflexivity|]. f_equal. exact IH. Qed.

Lemma assign_aligned (f : Post -> bool) (g : Post -> string) (embed : string -> vector)
    (set : vector -> Post -> Post) :
  forall ps qs pre,
  length qs = length ps ->
  let '(sel, idx) := reduce_idx f (length pre) ps in
  assign set (map (fun p => embed (g p)) sel) idx (pre ++ qs) =
    ((pre ++ zip_with (fun p q => if f p then set (embed (g p)) q else q) ps qs)%list, false).
Proof.
  induction ps as [|p ps IH]; intros qs pre Hlen.
  - destruct qs; [|discriminate]. simpl. rewrite app_nil_r. reflexivity.
  - destruct qs as [|q qs]; [discriminate|]. simpl in Hlen. injection Hlen as Hlen.
    simpl. specialize (IH qs).
    destruct (f p) eqn:Hf.
    + specialize (IH (pre ++ [set (embed (g p)) q])%list Hlen).
      rewrite length_app in IH. simpl in IH. rewrite Nat.add_1_r in IH.
      destruct (reduce_idx f (S (length pre)) ps) as [sel idx].
      simpl. rewrite alter_middle.
      replace (pre ++ set (embed (g p)) q :: qs)%list with ((pre ++ [set (embed (g p)) q]) ++ qs)%list
        by (rewrite <- app_assoc; reflexivity).
      rewrite IH, <- app_assoc. reflexivity.
    + specialize (IH (pre ++ [q])%list Hlen).
      rewrite length_app in IH. simpl in IH. rewrite Nat.add_1_r in IH.
      destruct (reduce_idx f (S (length pre)) ps) as [sel idx].
      replace (pre ++ q :: qs)%list with ((pre ++ [q]) ++ qs)%list
        by (rewrite <- app_assoc; reflexivity).
      rewrite IH, <- app_assoc. reflexivity.
Qed.

Lemma zip_with_diag {A B} (F : A -> B -> B) (G : A -> A -> B) (ps : list A) :
  zip_with F ps (zip_with G ps ps) = map (fun p => F p (G p p)) ps.
Proof. induction ps as [|p ps IH]; simpl; [reflexivity|]. f_equal. exact IH. Qed.

Lemma extract_sel (extract : list string -> option (list vector)) (embed : string -> vector)
    (g : Post -> string) (sel : list Post) :
  (forall ts, extract ts = Some (map embed ts)) ->
  match sel with [] => Some [] | _ => extract (map g sel) end =
  Some (map (fun p => embed (g p)) sel).
Proof. intros H. destruct sel; [reflexivity|]. rewrite H, map_map. reflexivity. Qed.

(** X12: With an extractor that returns one embedding per text, in order,
    [generateEmbeddings] gives every post with a non-empty [text] the
    embedding of its own text and every post with a non-empty [altText]
    the embedding of its own alt text; posts without them keep their
    fields. *)
Theorem generateEmbeddings_aligned (extract : list string -> option (list vector))
    (embed : string -> vector) (posts : list Post) :
  (forall ts, extract ts = Some (map embed ts)) ->
  generateEmbeddings extract posts =
  map (fun p =>
         let p1 := if has_text p then with_embedding (embed (text p)) p else p in
         if has_altText p then with_altTextEmbedding (embed (altText_str p)) p1 else p1) posts.
Proof.
  intros Hx. unfold generateEmbeddings.
  pose proof (assign_aligned has_text text embed with_embedding posts posts [] eq_refl) as Ht.
  simpl length in Ht.
  destruct (reduce_idx has_text 0 posts) as [sel idx] eqn:Et.
  pose proof (assign_aligned has_altText altText_str embed with_altTextEmbedding posts
                (zip_with (fun p q => if has_text p then with_embedding (embed (text p)) q else q)
                   posts posts) [] ltac:(rewrite length_zip_with; lia)) as Ha.
  simpl length in Ha.
  destruct (reduce_idx has_altText 0 posts) as [asel aidx] eqn:Ea.
  rewrite (extract_sel extract embed text sel Hx), (extract_sel extract embed altText_str asel Hx).
  simpl app in Ht, Ha. rewrite Ht. cbn [fst]. rewrite Ha. cbn [fst].
  apply zip_with_diag.
Qed.

Definition post_with (t : string) (a : option string) : Post :=
  mkPost "did:plc:bob" "3lk4aaaaaaaaa" 1 t None a None None None None None None None self None.

Definition len_embed (s : string) : vector := [Z.of_nat (String.length s)].

Lemma generateEmbeddings_aligned_witness :
  (forall ts, Some (map len_embed ts) = Some (map len_embed ts)) /\
  map embedding (generateEmbeddings (fun ts => Some (map len_embed ts))
                   [post_with "" (Some "a cat"); post_with "hello" None; post_with "hi" (Some "")])
  = [None; Some [5%Z]; Some [2%Z]] /\
  map altTextEmbedding (generateEmbeddings (fun ts => Some (map len_embed ts))
                   [post_with "" (Some "a cat"); post_with "hello" None; post_with "hi" (Some "")])
  = [Some [5%Z]; None; None].
Proof.
  split; [reflexivity|].
  rewrite (generateEmbeddings_aligned (fun ts => Some (map len_embed ts)) len_embed _ (fun ts => eq_refl)).
  split; vm_compute; reflexivity.
Defined.

End EmbeddingFacts.

(* ===================================================================== *)
(** * util.ts and db.ts helpers *)
(* ===================================================================== *)

Module UtilFacts.

Import Util.

Lemma str_app_assoc (a b c : string) : (a ++ b) ++ c = a ++ (b ++ c).
Proof. induction a as [|x a IH]; [reflexivity|]. exact (f_equal (String x) IH). Qed.

Lemma startsWith_app (a y : string) : JsString.startsWith (a ++ y) a = true.
Proof.
  induction a as [|c a IH]; [destruct y; reflexivity|].
  change (Ascii.eqb c c && JsString.startsWith (a ++ y) a = true).
  rewrite Ascii.eqb_refl. exact IH.
Qed.

Lemma includes_app_l (x s sub : string) :
  JsString.includes s sub = true -> JsString.includes (x ++ s) sub = true.
Proof.
  intros H. induction x as [|c x IH]; [exact H|].
  change (JsString.startsWith (String c (x ++ s)) sub || JsString.includes (x ++ s) sub = true).
  rewrite IH. apply orb_true_r.
Qed.

Lemma str_app_nil_r (a : string) : a ++ "" = a.
Proof. induction a as [|x a IH]; [reflexivity|]. exact (f_equal (String x) IH). Qed.

Lemma includes_of_startsWith (s sub : string) :
  JsString.startsWith s sub = true -> JsString.includes s sub = true.
Proof.
  intros H. destruct s as [|c s];
    [change (JsString.startsWith "" sub || false = true)
    | change (JsString.startsWith (String c s) sub || JsString.includes s sub = true)];
    rewrite H; reflexivity.
Qed.

Lemma includes_middle (x a y : string) : JsString.includes (x ++ a ++ y) a = true.
Proof. apply includes_app_l, includes_of_startsWith, startsWith_app. Qed.

Lemma concat_middle (sep s : string) (l : list string) :
  In s l -> exists x y, String.concat sep l = x ++ s ++ y.
Proof.
  induction l as [|z l IH]; [intros []|]. intros [<-|Hin].
  - destruct l as [|w l].
    + exists "", "". simpl. symmetry. apply str_app_nil_r.
    + exists "". exists (sep ++ String.concat sep (w :: l)). reflexivity.
  - destruct l as [|w l]; [destruct Hin|].
    destruct (IH Hin) as [x [y Hxy]].
    exists (z ++ sep ++ x), y. change (String.concat sep (z :: w :: l))
      with (z ++ sep ++ String.concat sep (w :: l)).
    rewrite Hxy, !str_app_assoc. reflexivity.
Qed.

Lemma mapi_header_in (a : string) : forall l i,
  In a l -> exists j, In (image_header j a) (mapi_from image_header i l).
Proof.
  induction l as [|b l IH]; intros i Hin; [destruct Hin|].
  destruct Hin as [<-|Hin].
  - exists i. left. reflexivity.
  - destruct (IH (S i) Hin) as [j Hj]. exists j. right. exact Hj.
Qed.

(** X13: Every alt text [extractAltTexts] finds in a post's embed appears in
    the [altText] that [processPost] stores (so a substring search on that
    column finds it), and a single alt text is stored as it is, without a
    [---image 1---] header. *)
Theorem stored_altText_contains_every_alt (e : Embed) (a : string) :
  (In a (alt_texts e) ->
   exists s, altText_of (extractAltTexts (Some e)) = Some s /\ JsString.includes s a = true) /\
  (alt_texts e = [a] -> altText_of (extractAltTexts (Some e)) = Some a).
Proof.
  split.
  - intros Hin. unfold extractAltTexts, altText_of.
    destruct (Nat.ltb_spec 1 (length (alt_texts e))) as [Hlt|Hle].
    + eexists; split; [reflexivity|].
      destruct (mapi_header_in a (alt_texts e) 0 Hin) as [j Hj].
      destruct (concat_middle (nl ++ nl) _ _ Hj) as [x [y Hxy]].
      replace (image_header j a) with (("---image " ++ nat_to_string (S j) ++ "---" ++ nl) ++ a)
        in Hxy by (unfold image_header; rewrite !str_app_assoc; reflexivity).
      unfold join. rewrite Hxy, str_app_assoc, <- (str_app_assoc x). apply includes_middle.
    + destruct (alt_texts e) as [|b [|c l]]; [destruct Hin | | simpl in Hle; lia].
      destruct Hin as [<-|[]]. exists b. split; [reflexivity|].
      pose proof (includes_middle "" b "") as H. rewrite str_app_nil_r in H. exact H.
  - intros H. unfold extractAltTexts, altText_of. rewrite H. reflexivity.
Qed.

(** X15: A database path without a [:] is opened as a [file:] URL and gets the
    WAL journal; a URL (it has a [:]) without [file:] in it, other than
    [:memory:], never does. *)
Theorem database_wal_for_local_paths (path : string) :
  (JsString.includes path ":" = false -> uses_wal (database_url path) = true) /\
  (JsString.includes path ":" = true -> JsString.includes path "file:" = false ->
   path <> ":memory:" -> uses_wal (database_url path) = false).
Proof.
  unfold database_url, uses_wal. split.
  - intros H. rewrite H. pose proof (includes_middle "" "file:" path) as Hm. exact (f_equal (fun b => b || _) Hm).
  - intros Hc Hf Hm. rewrite Hc, Hf. simpl. apply String.eqb_neq. exact Hm.
Qed.

End UtilFacts.

(* ===================================================================== *)
(** * Search result order (db.ts) *)
(* ===================================================================== *)

Module SearchOrder.

Import Store Search SearchFacts.

(** X16: [searchPostsText] returns its rows ordered by [createdAt]: newest
    first by default ([order = "desc"]), oldest first for [asc]; rows with
    equal [createdAt] may come in either order. *)
Theorem searchPostsText_sorted {blob : Type} dateTime (table : list (PostRow blob)) text
    (o : SearchPostsOptions) (l : list (PostRow blob)) :
  searchPostsText dateTime table text o = Some l ->
  Sorted (before_eq (match order o with Some x => x | None => desc end)) l.
Proof.
  unfold searchPostsText. destruct (options_condition dateTime o); [|discriminate].
  intros H. injection H as <-. unfold limit.
  destruct (results o <? 0)%Z; [apply order_by_sorted|].
  apply firstn_sorted, order_by_sorted.
Qed.

Lemma searchPostsText_sorted_witness :
  searchPostsText (fun _ => None) [row_at "a" 1 "x"; row_at "b" 3 "y"; row_at "c" 2 "z"]
    (Some "") (no_filters 10) = Some [row_at "b" 3 "y"; row_at "c" 2 "z"; row_at "a" 1 "x"] /\
  Sorted (before_eq desc) [row_at "b" 3 "y"; row_at "c" 2 "z"; row_at "a" 1 "x"].
Proof.
  assert (H : searchPostsText (fun _ => None) [row_at "a" 1 "x"; row_at "b" 3 "y"; row_at "c" 2 "z"]
    (Some "") (no_filters 10) = Some [row_at "b" 3 "y"; row_at "c" 2 "z"; row_at "a" 1 "x"])
    by (vm_compute; reflexivity).
  split; [exact H|]. exact (searchPostsText_sorted _ _ _ _ _ H).
Defined.

(** X17: A non-empty [before] or [after] that does not parse as a date makes
    [searchPostsText] throw (here: [None]), whatever the table and the
    query. *)
Theorem searchPostsText_invalid_date_throws {blob : Type} dateTime (table : list (PostRow blob))
    text (o : SearchPostsOptions) (d : string) :
  (before o = Some d \/ after o = Some d) -> d <> "" -> dateTime d = None ->
  searchPostsText dateTime table text o = None.
Proof.
  intros Hba Hne Hd. unfold searchPostsText, options_condition, toDateOrNull.
  assert (Ht : truthy (Some d) = true).
  { unfold truthy. apply negb_true_iff, String.eqb_neq. exact Hne. }
  destruct Hba as [Hb|Ha].
  - rewrite Hb, Hd, Ht. reflexivity.
  - rewrite Ha, Hd, Ht.
    destruct (truthy (before o) && negb (bool_decide (is_Some (match before o with Some t => dateTime t | None => None end))));
      reflexivity.
Qed.

Lemma searchPostsText_invalid_date_throws_witness :
  searchPostsText (fun _ => None) [row_at "a" 1 "x"] (Some "x")
    (mkSearchOptions 10 None None None None (Some "yesterday") false None) = None.
Proof.
  apply (searchPostsText_invalid_date_throws (fun _ => None) [row_at "a" 1 "x"] (Some "x")
           (mkSearchOptions 10 None None None None (Some "yesterday") false None) "yesterday");
    [right; reflexivity | discriminate | reflexivity].
Defined.

End SearchOrder.

(* ===================================================================== *)
(** * The walk depth *)
(* ===================================================================== *)

Module DepthFacts.

Import BackfillDepth.

(** X18: The depth the walk uses: [--depth] when given, else [MAX_DEPTH] (5),
    reduced to 2 when the user follows more than 250 accounts and the
    depth is 5 -- also when [--depth 5] was passed explicitly, while any
    other explicit depth is kept.  Without a [handle] nothing is walked. *)
Theorem backfill_depth_reduction :
  (forall handle f, Search.truthy handle = true -> (250 < f)%Z ->
     backfill_maxDepth (initial_maxDepth None) handle (Some f) = Some 2%Z /\
     backfill_maxDepth (initial_maxDepth (Some 5%Z)) handle (Some f) = Some 2%Z) /\
  (forall handle d followsCount, Search.truthy handle = true -> d <> 5%Z ->
     backfill_maxDepth (initial_maxDepth (Some d)) handle followsCount = Some d) /\
  (forall handle depth followsCount,
     Search.truthy handle = true ->
     (match followsCount with Some f => f | None => 0 end <= 250)%Z ->
     backfill_maxDepth (initial_maxDepth depth) handle followsCount = Some (initial_maxDepth depth)) /\
  (forall handle maxDepth followsCount, Search.truthy handle = false ->
     backfill_maxDepth maxDepth handle followsCount = None).
Proof.
  unfold backfill_maxDepth. split; [|split; [|split]].
  - intros handle f Hh Hf. rewrite Hh. simpl.
    replace (MANY_FOLLOWS_THRESHOLD <? f)%Z with true by (symmetry; apply Z.ltb_lt; exact Hf).
    split; reflexivity.
  - intros handle d fc Hh Hd. rewrite Hh. simpl.
    replace (d =? MAX_DEPTH)%Z with false by (symmetry; apply Z.eqb_neq; exact Hd).
    reflexivity.
  - intros handle depth fc Hh Hf. rewrite Hh. simpl.
    replace (MANY_FOLLOWS_THRESHOLD <? _)%Z with false by (symmetry; apply Z.ltb_ge; exact Hf).
    rewrite andb_false_r. reflexivity.
  - intros handle m fc Hh. rewrite Hh. reflexivity.
Qed.

End DepthFacts.
